(** * Translucify: the scanline flood fill of [src/translucify.js]

    A shallow embedding of [floodFill] (lines 77-155) and of its closure
    [matchTolerance] (lines 97-103).

    Modelling choices.
    - [imageData.data] is a [Uint8ClampedArray]: a [list Z] read by index.
      A read outside the array yields JavaScript's [undefined], modelled by
      [None]; a write outside the array is ignored.
    - JavaScript numbers are modelled by exact rationals; [undefined] and
      [NaN] are [None], and every comparison with them is false.
    - [pixelStack] is a list whose head is the top of the stack.
    - Every function returns, next to its result, the list of buffer reads,
      buffer writes and stack pushes it performed, in program order. *)

From Stdlib Require Import ZArith QArith Lia Lqa List Bool.
From stdpp Require Import base list.

Local Open Scope Z_scope.

(** ** JavaScript numbers and buffer access *)

Definition jsnum := option Q.

Definition of_byte (v : option Z) : jsnum :=
  match v with Some z => Some (inject_Z z) | None => None end.

Definition js_mul (a : jsnum) (b : Q) : jsnum :=
  match a with Some x => Some (x * b)%Q | None => None end.

(** [a <= b] on JavaScript numbers: false as soon as one side is [NaN]. *)
Definition js_le (a b : jsnum) : bool :=
  match a, b with
  | Some x, Some y => Qle_bool x y
  | _, _ => false
  end.

Definition js_ge (a b : jsnum) : bool := js_le b a.

(** [data[i]] *)
Definition get (data : list Z) (i : Z) : option Z :=
  if i <? 0 then None else data !! Z.to_nat i.

(** [data[i] = v]; out of range the typed array ignores the store. *)
Definition set (data : list Z) (i : Z) (v : Z) : list Z :=
  if i <? 0 then data else <[Z.to_nat i := v]> data.

(** ** Events *)

Inductive event :=
| EvRead (i : Z)
| EvWrite (i : Z)
| EvPush (x y : Z).

Definition log := list event.

(** ** Bounds (lines 84-90) *)

Record Bounds := mkBounds {
  rMax : jsnum; gMax : jsnum; bMax : jsnum;
  rMin : jsnum; gMin : jsnum; bMin : jsnum
}.

Definition computeBounds (data : list Z) (pixelPos : Z) (tolerance : Q) : Bounds :=
  {| rMax := js_mul (of_byte (get data pixelPos)) (1 + tolerance);
     gMax := js_mul (of_byte (get data (pixelPos + 1))) (1 + tolerance);
     bMax := js_mul (of_byte (get data (pixelPos + 2))) (1 + tolerance);
     rMin := js_mul (of_byte (get data pixelPos)) (1 - tolerance);
     gMin := js_mul (of_byte (get data (pixelPos + 1))) (1 - tolerance);
     bMin := js_mul (of_byte (get data (pixelPos + 2))) (1 - tolerance) |}.

(** ** matchTolerance (lines 97-103) *)

Definition matches (B : Bounds) (data : list Z) (pixelIndex : Z) : bool :=
  let r := of_byte (get data pixelIndex) in
  let g := of_byte (get data (pixelIndex + 1)) in
  let b := of_byte (get data (pixelIndex + 2)) in
  (js_ge r (rMin B) && js_le r (rMax B)) &&
  (js_ge g (gMin B) && js_le g (gMax B)) &&
  (js_ge b (bMin B) && js_le b (bMax B)).

Definition matchTolerance (B : Bounds) (data : list Z) (pixelIndex : Z) : bool * log :=
  (matches B data pixelIndex,
   [EvRead pixelIndex; EvRead (pixelIndex + 1); EvRead (pixelIndex + 2)]).

(** ** The loops of floodFill (lines 105-153) *)

(** State of the downward loop: the variables it reads and assigns. *)
Record scan := mkScan {
  s_y : Z;
  s_pos : Z;
  s_data : list Z;
  s_stack : list (Z * Z);
  s_reachLeft : bool;
  s_reachRight : bool
}.

(** State of the outer loop. *)
Record state := mkState {
  data : list Z;
  pixelStack : list (Z * Z)
}.

(** Lines 118-121. *)
Definition zeroPixel (d : list Z) (pixelPos : Z) : list Z * log :=
  (set (set (set (set d pixelPos 0) (pixelPos + 1) 0) (pixelPos + 2) 0) (pixelPos + 3) 0,
   [EvWrite pixelPos; EvWrite (pixelPos + 1); EvWrite (pixelPos + 2); EvWrite (pixelPos + 3)]).

Section Loops.

Variables width height : Z.
Variable B : Bounds.

(** [while (y-- >= 0 && matchTolerance(pixelPos)) pixelPos -= width * 4;]
    (lines 110-112). The loop runs at most [y + 1] times; [n] counts the
    rows left above, so at [n = 0] the test [y >= 0] is false. Returns the
    final [y] and [pixelPos]. *)
Fixpoint walkUp (n : nat) (d : list Z) (y pixelPos : Z) : Z * Z * log :=
  match n with
  | O => (y - 1, pixelPos, [])
  | S n' =>
    if 0 <=? y then
      let (m, e) := matchTolerance B d pixelPos in
      if m then
        let '(y', p', e') := walkUp n' d (y - 1) (pixelPos - width * 4) in
        (y', p', e ++ e')
      else (y - 1, pixelPos, e)
    else (y - 1, pixelPos, [])
  end.

(** Lines 123-133, with [y] already incremented. *)
Definition checkLeft (x y pixelPos : Z) (d : list Z) (stack : list (Z * Z))
    (reachLeft : bool) : list (Z * Z) * bool * log :=
  if 0 <? x then
    let (m, e) := matchTolerance B d (pixelPos - 4) in
    if m then
      if negb reachLeft then ((x - 1, y) :: stack, true, e ++ [EvPush (x - 1) y])
      else (stack, reachLeft, e)
    else if reachLeft then (stack, false, e)
    else (stack, reachLeft, e)
  else (stack, reachLeft, []).

(** Lines 134-150. *)
Definition checkRight (x y pixelPos : Z) (d : list Z) (stack : list (Z * Z))
    (reachLeft reachRight : bool) : list (Z * Z) * bool * bool * log :=
  if x <? width - 1 then
    let (m, e) := matchTolerance B d (pixelPos + 4) in
    if m then
      if negb reachRight then
        ((x + 1, y) :: stack, reachLeft, true, e ++ [EvPush (x + 1) y])
      else (stack, reachLeft, reachRight, e)
    else
      let (m', e') := matchTolerance B d (pixelPos + 4 - width * 4) in
      if m' then
        if negb reachLeft then
          ((x + 1, y - 1) :: stack, true, reachRight, e ++ e' ++ [EvPush (x + 1) (y - 1)])
        else (stack, reachLeft, reachRight, e ++ e')
      else if reachRight then (stack, reachLeft, false, e ++ e')
      else (stack, reachLeft, reachRight, e ++ e')
  else (stack, reachLeft, reachRight, []).

(** Body of the downward loop (lines 118-151); [y] is the row of
    [pixelPos], after the [y++] of the loop test. *)
Definition scanBody (x y : Z) (s : scan) : scan * log :=
  let (d1, e1) := zeroPixel (s_data s) (s_pos s) in
  let '(st1, rl1, e2) := checkLeft x y (s_pos s) d1 (s_stack s) (s_reachLeft s) in
  let '(st2, rl2, rr2, e3) := checkRight x y (s_pos s) d1 st1 rl1 (s_reachRight s) in
  (mkScan y (s_pos s + width * 4) d1 st2 rl2 rr2, e1 ++ e2 ++ e3).

Definition bump (s : scan) : scan :=
  mkScan (s_y s + 1) (s_pos s) (s_data s) (s_stack s) (s_reachLeft s) (s_reachRight s).

(** [while (y++ < height - 1 && matchTolerance(pixelPos)) { ... }]
    (lines 117-152). [n] counts the rows left below: at [n = 0] the test
    [y < height - 1] is false. [y] is incremented whatever the test says. *)
Fixpoint walkDown (n : nat) (x : Z) (s : scan) : scan * log :=
  match n with
  | O => (bump s, [])
  | S n' =>
    if s_y s <? height - 1 then
      let (m, e) := matchTolerance B (s_data s) (s_pos s) in
      if m then
        let (s1, e1) := scanBody x (s_y s + 1) s in
        let (s2, e2) := walkDown n' x s1 in
        (s2, e ++ e1 ++ e2)
      else (bump s, e)
    else (bump s, [])
  end.

(** One iteration of [while (pixelStack.length)] (lines 106-152). On an
    empty stack the loop has ended and the state stays as it is. *)
Definition iter (s : state) : state * log :=
  match pixelStack s with
  | [] => (s, [])
  | (x, y) :: rest =>
    let pixelPos := (y * width + x) * 4 in
    let '(y1, p1, e1) := walkUp (Z.to_nat (y + 1)) (data s) y pixelPos in
    let p2 := p1 + width * 4 in
    let y2 := y1 + 1 in
    let (sc, e2) :=
      walkDown (Z.to_nat (height - 1 - y2)) x (mkScan y2 p2 (data s) rest false false) in
    (mkState (s_data sc) (s_stack sc), e1 ++ e2)
  end.

(** [n] iterations of the outer loop. *)
Fixpoint run (n : nat) (s : state) : state * log :=
  match n with
  | O => (s, [])
  | S n' =>
    let (s1, e1) := iter s in
    let (s2, e2) := run n' s1 in
    (s2, e1 ++ e2)
  end.

End Loops.

(** ** floodFill (lines 77-155) *)

(** The state and bounds before the first iteration (lines 78-90). *)
Definition start (x y : Z) (d : list Z) : state := mkState d [(x, y)].

Definition seedBounds (width : Z) (x y : Z) (d : list Z) (tolerance : Q) : Bounds :=
  computeBounds d ((y * width + x) * 4) tolerance.

(** The fill after [n] iterations of its outer loop, with its events. *)
Definition fillRun (width height : Z) (x y : Z) (d : list Z) (tolerance : Q)
    (n : nat) : state * log :=
  run width height (seedBounds width x y d tolerance) n (start x y d).

(** [floodFill] with [fuel] iterations at hand: the buffer handed to
    [putImageData] once the stack is empty, [None] while it is not. *)
Definition floodFill (width height : Z) (x y : Z) (d : list Z) (tolerance : Q)
    (fuel : nat) : option (list Z) :=
  let s := fst (fillRun width height x y d tolerance fuel) in
  match pixelStack s with
  | [] => Some (data s)
  | _ => None
  end.

(** * Specification vocabulary *)

(** ** Reading the event log *)

Definition writes (l : log) : list Z :=
  flat_map (fun e => match e with EvWrite i => [i] | _ => [] end) l.

Definition reads (l : log) : list Z :=
  flat_map (fun e => match e with EvRead i => [i] | _ => [] end) l.

Definition pushes (l : log) : list (Z * Z) :=
  flat_map (fun e => match e with EvPush x y => [(x, y)] | _ => [] end) l.

(** ** Geometry of the buffer *)

(** Index of the first byte of pixel [(x, y)] (lines 81 and 109). *)
Definition pos (width : Z) (x y : Z) : Z := (y * width + x) * 4.

Definition inGrid (width height : Z) (q : Z * Z) : Prop :=
  0 <= q.1 < width /\ 0 <= q.2 < height.

(** The buffer has [width * height] pixels of four bytes. *)
Definition validBuffer (width height : Z) (d : list Z) : Prop :=
  Z.of_nat (length d) = width * height * 4.

(** The RGBA quadruplet stored at a pixel position. *)
Definition pixel (d : list Z) (i : Z) : option Z * option Z * option Z * option Z :=
  (get d i, get d (i + 1), get d (i + 2), get d (i + 3)).

Definition zeroPx : option Z * option Z * option Z * option Z :=
  (Some 0, Some 0, Some 0, Some 0).

(** The pixels an event log has zeroed. *)
Definition zeroed (width : Z) (l : log) (q : Z * Z) : Prop :=
  In (pos width q.1 q.2) (writes l).

Definition zeroedIn (width height : Z) (l : log) (q : Z * Z) : Prop :=
  inGrid width height q /\ zeroed width l q.

(** The neighbours the fill moves to from a pixel it has zeroed: left,
    right, up, down, and the diagonal [(x + 1, y - 1)] of line 143. *)
Definition step (p q : Z * Z) : Prop :=
  q = (p.1 - 1, p.2) \/ q = (p.1 + 1, p.2) \/
  q = (p.1, p.2 - 1) \/ q = (p.1, p.2 + 1) \/
  q = (p.1 + 1, p.2 - 1).

(** The four neighbours alone. *)
Definition step4 (p q : Z * Z) : Prop :=
  q = (p.1 - 1, p.2) \/ q = (p.1 + 1, p.2) \/
  q = (p.1, p.2 - 1) \/ q = (p.1, p.2 + 1).

(** [conn R S s p]: a chain of [R]-moves leads from [s] to [p] through
    pixels of [S] only, both ends included. *)
Inductive conn (R : Z * Z -> Z * Z -> Prop) (S : Z * Z -> Prop) (s : Z * Z) :
    Z * Z -> Prop :=
| conn_here : S s -> conn R S s s
| conn_next p q : conn R S s p -> R p q -> S q -> conn R S s q.

(** Pixels of the grid whose colour in [d] lies within the bounds [B]. *)
Definition matching (width height : Z) (B : Bounds) (d : list Z) (q : Z * Z) : Prop :=
  inGrid width height q /\ matches B d (pos width q.1 q.2) = true.

(** The region the fill may reach: the pixels joined to the seed by a chain
    of moves of [step] through matching pixels. *)
Definition matchingRegion (width height : Z) (B : Bounds) (d : list Z)
    (seed p : Z * Z) : Prop :=
  conn step (matching width height B d) seed p.

(** ** Valid input *)

(** A buffer of [width * height] RGBA pixels of 8 bits per channel, a seed
    inside the grid, a tolerance that is not negative. *)
Definition validInput (width height x y : Z) (d : list Z) (tolerance : Q) : Prop :=
  validBuffer width height d /\ Forall (fun v => 0 <= v <= 255) d /\
  inGrid width height (x, y) /\ (0 <= tolerance)%Q.

(** A checkable form of [validInput]. *)
Definition validInputb (width height x y : Z) (d : list Z) (tolerance : Q) : bool :=
  (Z.of_nat (length d) =? width * height * 4) &&
  forallb (fun v => (0 <=? v) && (v <=? 255)) d &&
  ((0 <=? x) && (x <? width) && (0 <=? y) && (y <? height)) &&
  Qle_bool 0 tolerance.

(** ** Invariants of the loops *)

(** Effect on buffer and log of zeroing rows [t .. b - 1] of column [x]. *)
Definition runEffect (width height : Z) (x t b : Z) (d d' : list Z) (e : log) : Prop :=
  length d' = length d /\
  (forall y k, t <= y < b -> 0 <= k < 4 -> get d' (pos width x y + k) = Some 0) /\
  (forall x' y' k, inGrid width height (x', y') -> 0 <= k < 4 ->
     ~ (x' = x /\ t <= y' < b) ->
     get d' (pos width x' y' + k) = get d (pos width x' y' + k)) /\
  (forall x' y', inGrid width height (x', y') ->
     (In (pos width x' y') (writes e) <-> x' = x /\ t <= y' < b)).

(** A stack entry pushed while rows [t .. b - 1] of column [x] were zeroed:
    a pixel of a neighbouring column that matched, next to a zeroed one. *)
Definition pushedFrom (width height : Z) (B : Bounds) (x t b : Z) (d : list Z)
    (q : Z * Z) : Prop :=
  inGrid width height q /\ q.1 <> x /\ matches B d (pos width q.1 q.2) = true /\
  exists r, t <= r < b /\ step (x, r) q.

(** Frame invariant of the outer loop. [orig] is the buffer [floodFill]
    started from, [l] the events so far: the buffer keeps its size, the
    stack holds pixels of the grid, a zeroed pixel is all zero and matched
    in [orig], any other pixel is as in [orig]. *)
Record frameInv (width height : Z) (B : Bounds) (orig : list Z) (s : state)
    (l : log) : Prop := {
  fi_valid : validBuffer width height (data s);
  fi_stack : Forall (inGrid width height) (pixelStack s);
  fi_zero : forall x y, inGrid width height (x, y) -> zeroed width l (x, y) ->
    (forall k, 0 <= k < 4 -> get (data s) (pos width x y + k) = Some 0) /\
    matches B orig (pos width x y) = true;
  fi_same : forall x y k, inGrid width height (x, y) -> ~ zeroed width l (x, y) ->
    0 <= k < 4 -> get (data s) (pos width x y + k) = get orig (pos width x y + k)
}.

Arguments fi_valid {_ _ _ _ _ _} _.
Arguments fi_stack {_ _ _ _ _ _} _.
Arguments fi_zero {_ _ _ _ _ _} _.
Arguments fi_same {_ _ _ _ _ _} _.

(** A pending stack entry is next to a zeroed pixel, or is the seed. *)
Definition anchored (width height : Z) (seed : Z * Z) (l : log) (q : Z * Z) : Prop :=
  q = seed \/ exists w, zeroedIn width height l w /\ step w q.

(** Connectivity invariant of the outer loop: a stack entry is zeroed, or
    matches and is anchored; every zeroed pixel is joined to the seed
    through zeroed pixels. *)
Record connInv (width height : Z) (B : Bounds) (seed : Z * Z) (s : state)
    (l : log) : Prop := {
  ci_stack : Forall (fun q => zeroed width l q \/
                (matches B (data s) (pos width q.1 q.2) = true /\
                 anchored width height seed l q))
              (pixelStack s);
  ci_conn : forall p, zeroedIn width height l p ->
              conn step (zeroedIn width height l) seed p
}.

Arguments ci_stack {_ _ _ _ _ _} _.
Arguments ci_conn {_ _ _ _ _ _} _.

(** ** Vocabulary of the further properties *)

(** One channel test of line 102: [v >= lo && v <= hi]. *)
Definition within (v : option Z) (lo hi : jsnum) : bool :=
  js_ge (of_byte v) lo && js_le (of_byte v) hi.

(** Whether a pixel whose R, G and B are 0 lies within the bounds. *)
Definition zeroMatches (B : Bounds) : bool := matches B [0; 0; 0] 0.

(** A read the fill may perform: inside the buffer, or in the row above
    the grid, where only the diagonal test of line 141 looks. *)
Definition readOK (width height : Z) (i : Z) : Prop :=
  0 <= i < width * height * 4 \/
  exists x k, 0 < x < width /\ 0 <= k < 3 /\ i = pos width x (-1) + k.

(** Two buffers that differ at most in their alpha bytes. *)
Definition rgbEq (d d' : list Z) : Prop :=
  length d = length d' /\ forall i, i mod 4 <> 3 -> get d i = get d' i.

(** What the log of a fill on a valid input holds: reads that are [readOK],
    pushes of pixels of the grid, writes to the bytes of zeroed pixels of
    the grid. *)
Definition logOK (width height : Z) (l : log) : Prop :=
  Forall (readOK width height) (reads l) /\
  Forall (inGrid width height) (pushes l) /\
  Forall (fun i => exists x y k, inGrid width height (x, y) /\ 0 <= k < 4 /\
                     i = pos width x y + k /\ zeroed width l (x, y)) (writes l).

(** The seed pixel is inside the buffer and not black. *)
Definition coloredSeed (width : Z) (x y : Z) (d : list Z) : Prop :=
  exists r g b,
    get d (pos width x y) = Some r /\ get d (pos width x y + 1) = Some g /\
    get d (pos width x y + 2) = Some b /\ (0 < r \/ 0 < g \/ 0 < b).

(** Loop states that differ at most in the alpha bytes of their buffers. *)
Definition scanEq (s s' : scan) : Prop :=
  s_y s = s_y s' /\ s_pos s = s_pos s' /\ rgbEq (s_data s) (s_data s') /\
  s_stack s = s_stack s' /\ s_reachLeft s = s_reachLeft s' /\
  s_reachRight s = s_reachRight s'.

Definition stateEq (s s' : state) : Prop :=
  rgbEq (data s) (data s') /\ pixelStack s = pixelStack s'.

(** Columns the fill has zeroed from top to bottom, columns it has not
    touched, and the invariant of a fill over a buffer in which every
    pixel matches: a column is one or the other, and an untouched column
    next to a zeroed one has an entry on the stack. *)
Definition colZeroed (width height : Z) (l : log) (x : Z) : Prop :=
  forall r, 0 <= r < height -> zeroed width l (x, r).

Definition colFresh (width height : Z) (l : log) (x : Z) : Prop :=
  forall r, 0 <= r < height -> ~ zeroed width l (x, r).

Definition columnsInv (width height : Z) (s : state) (l : log) : Prop :=
  (forall x, 0 <= x < width -> colZeroed width height l x \/ colFresh width height l x) /\
  (forall x x', 0 <= x < width -> 0 <= x' < width -> x' = x - 1 \/ x' = x + 1 ->
     colZeroed width height l x -> colFresh width height l x' ->
     exists r, In (x', r) (pixelStack s)).

(** ** Concrete buffers *)

Definition gray : list Z := [200; 200; 200; 255].
Definition light : list Z := [205; 205; 205; 255].
Definition blue : list Z := [0; 0; 255; 255].
Definition black : list Z := [0; 0; 0; 255].
Definition clear : list Z := [0; 0; 0; 0].

(** The default tolerance, 0.05 (line 9). *)
Definition DEFAULT_TOLERANCE_VALUE : Q := 5 # 100.

(** Scenario A: 4 x 4, every pixel gray. *)
Definition uniform4x4 : list Z := concat (repeat gray 16).

(** Scenario B: 4 x 4 checkerboard, gray at (0, 0). *)
Definition checkerboard4x4 : list Z :=
  concat [gray; blue; gray; blue;
          blue; gray; blue; gray;
          gray; blue; gray; blue;
          blue; gray; blue; gray].

(** 2 x 1, two opaque black pixels. *)
Definition blackPair : list Z := black ++ black.

(** The two states the fill of [blackPair] alternates between. *)
Definition blackPairA : state := mkState (clear ++ clear) [(0, 0)].
Definition blackPairB : state := mkState (clear ++ clear) [(1, 0)].

(** 2 x 3: a gray column next to gray, blue, gray. *)
Definition notch2x3 : list Z := concat [gray; gray; gray; blue; gray; gray].

(** 2 x 3: a gray column next to light gray, blue, gray. *)
Definition shade2x3 : list Z := concat [gray; light; gray; blue; gray; gray].

(** 2 x 1: gray, blue. *)
Definition grayBlue : list Z := gray ++ blue.

(** 1 x 2: gray above opaque black. *)
Definition grayOverBlack : list Z := gray ++ black.

(** ** The callers of floodFill *)

(** The tolerance [translucifyAll] stores in [_toleranceValue] (lines
    190-194): its argument when it is given, the default otherwise. *)
Definition toleranceValue (tolerance : option Q) : Q :=
  match tolerance with
  | Some t => t
  | None => DEFAULT_TOLERANCE_VALUE
  end.

(** The pixel work of [applyFloodFill] (lines 164-166): the canvas holds
    the image, [width] by [height], as the buffer [d]; the fill starts at
    (0, 0) with the stored tolerance. *)
Definition applyFloodFill (width height : Z) (d : list Z) (_toleranceValue : Q)
    (fuel : nat) : option (list Z) :=
  floodFill width height 0 0 d _toleranceValue fuel.

(** ** Two sentences of the specification, as it words them *)

(** Scenario B: the fill returns a buffer in which the eight gray pixels
    are zero and the blue ones unchanged. *)
Definition scenarioB_claim : Prop :=
  exists fuel d',
    floodFill 4 4 0 0 checkerboard4x4 DEFAULT_TOLERANCE_VALUE fuel = Some d' /\
    forall px py, inGrid 4 4 (px, py) ->
      pixel d' (pos 4 px py) =
      if Z.even (px + py) then zeroPx else pixel checkerboard4x4 (pos 4 px py).

(** Idempotence: a fill run again on the buffer a first fill returned, with
    the same seed and tolerance, zeroes no pixel that the first did not. *)
Definition secondFillInside (width height x y : Z) (d : list Z) (tol : Q) : Prop :=
  forall fuel d1 n p,
    floodFill width height x y d tol fuel = Some d1 ->
    inGrid width height p ->
    zeroed width (snd (fillRun width height x y d1 tol n)) p ->
    zeroed width (snd (fillRun width height x y d tol fuel)) p.

(** * Verification *)

(** ** Reading the event log *)

Lemma writes_app l1 l2 : writes (l1 ++ l2) = writes l1 ++ writes l2.
Proof. apply flat_map_app. Qed.

Lemma writes_read i l : writes (EvRead i :: l) = writes l.
Proof. reflexivity. Qed.

Lemma writes_push x y l : writes (EvPush x y :: l) = writes l.
Proof. reflexivity. Qed.

Lemma writes_write i l : writes (EvWrite i :: l) = i :: writes l.
Proof. reflexivity. Qed.

Lemma pushes_app l1 l2 : pushes (l1 ++ l2) = pushes l1 ++ pushes l2.
Proof. apply flat_map_app. Qed.

Lemma reads_app l1 l2 : reads (l1 ++ l2) = reads l1 ++ reads l2.
Proof. apply flat_map_app. Qed.

(** ** The counters of the two inner loops

    [walkUp] and [walkDown] recurse on a counter; started as [iter] starts
    them, they satisfy the equation of the [while] loop they stand for,
    whatever the value of [y]: the counter never cuts a loop short. *)

Lemma s_y_scanBody width B x y s : s_y (fst (scanBody width B x y s)) = y.
Proof.
  unfold scanBody. destruct (zeroPixel (s_data s) (s_pos s)) as [d1 e1].
  destruct (checkLeft B x y (s_pos s) d1 (s_stack s) (s_reachLeft s)) as [[st1 rl1] e2].
  destruct (checkRight width B x y (s_pos s) d1 st1 rl1 (s_reachRight s))
    as [[[st2 rl2] rr2] e3].
  reflexivity.
Qed.

Lemma walkUp_loop width B d y pixelPos :
  walkUp width B (Z.to_nat (y + 1)) d y pixelPos =
  if 0 <=? y then
    let (m, e) := matchTolerance B d pixelPos in
    if m then
      let '(y', p', e') :=
        walkUp width B (Z.to_nat (y - 1 + 1)) d (y - 1) (pixelPos - width * 4) in
      (y', p', e ++ e')
    else (y - 1, pixelPos, e)
  else (y - 1, pixelPos, []).
Proof.
  destruct (0 <=? y) eqn:E.
  - apply Z.leb_le in E.
    replace (Z.to_nat (y + 1)) with (S (Z.to_nat (y - 1 + 1))) by lia.
    simpl. rewrite (proj2 (Z.leb_le 0 y) E). reflexivity.
  - apply Z.leb_gt in E. replace (Z.to_nat (y + 1)) with O by lia. reflexivity.
Qed.

Lemma walkDown_loop width height B x s :
  walkDown width height B (Z.to_nat (height - 1 - s_y s)) x s =
  if s_y s <? height - 1 then
    let (m, e) := matchTolerance B (s_data s) (s_pos s) in
    if m then
      let (s1, e1) := scanBody width B x (s_y s + 1) s in
      let (s2, e2) := walkDown width height B (Z.to_nat (height - 1 - s_y s1)) x s1 in
      (s2, e ++ e1 ++ e2)
    else (bump s, e)
  else (bump s, []).
Proof.
  destruct (s_y s <? height - 1) eqn:E.
  - apply Z.ltb_lt in E.
    replace (Z.to_nat (height - 1 - s_y s))
      with (S (Z.to_nat (height - 1 - (s_y s + 1)))) by lia.
    simpl. rewrite (proj2 (Z.ltb_lt _ _) E).
    pose proof (s_y_scanBody width B x (s_y s + 1) s) as Hy.
    destruct (scanBody width B x (s_y s + 1) s) as [s1 e1]. simpl in Hy.
    rewrite Hy. reflexivity.
  - apply Z.ltb_ge in E. replace (Z.to_nat (height - 1 - s_y s)) with O by lia.
    reflexivity.
Qed.

(** ** Buffer access *)

Lemma get_set_eq (d : list Z) i v :
  0 <= i < Z.of_nat (length d) -> get (set d i v) i = Some v.
Proof.
  intros H. unfold get, set.
  destruct (i <? 0) eqn:E; [apply Z.ltb_lt in E; lia|].
  apply list_lookup_insert_eq. lia.
Qed.

Lemma get_set_ne (d : list Z) i j v : i <> j -> get (set d i v) j = get d j.
Proof.
  intros H. unfold get, set.
  destruct (j <? 0) eqn:Ej; [reflexivity|].
  destruct (i <? 0) eqn:Ei; [reflexivity|].
  apply Z.ltb_ge in Ej, Ei.
  apply list_lookup_insert_ne. lia.
Qed.

Lemma length_set (d : list Z) i v : length (set d i v) = length d.
Proof. unfold set. destruct (i <? 0); [reflexivity|apply length_insert]. Qed.

Lemma get_Some_range (d : list Z) i v :
  get d i = Some v -> 0 <= i < Z.of_nat (length d).
Proof.
  unfold get. destruct (i <? 0) eqn:E; [discriminate|].
  apply Z.ltb_ge in E. intros H. apply lookup_lt_Some in H. lia.
Qed.

Lemma get_in_range (d : list Z) i :
  0 <= i < Z.of_nat (length d) -> exists v, get d i = Some v.
Proof.
  intros H. unfold get.
  destruct (i <? 0) eqn:E; [apply Z.ltb_lt in E; lia|].
  destruct (lookup_lt_is_Some_2 d (Z.to_nat i)) as [v Hv]; [lia|eauto].
Qed.

Lemma length_zeroPixel d p : length (fst (zeroPixel d p)) = length d.
Proof. unfold zeroPixel. simpl. rewrite !length_set. reflexivity. Qed.

Lemma get_zeroPixel_in d p j :
  0 <= p -> p + 3 < Z.of_nat (length d) -> p <= j < p + 4 ->
  get (fst (zeroPixel d p)) j = Some 0.
Proof.
  intros H0 H1 Hj. unfold zeroPixel. simpl.
  assert (j = p \/ j = p + 1 \/ j = p + 2 \/ j = p + 3) as [-> | [-> | [-> | ->]]] by lia.
  - rewrite !get_set_ne by lia. apply get_set_eq. lia.
  - rewrite !get_set_ne by lia. apply get_set_eq. rewrite length_set. lia.
  - rewrite !get_set_ne by lia. apply get_set_eq. rewrite !length_set. lia.
  - apply get_set_eq. rewrite !length_set. lia.
Qed.

Lemma get_zeroPixel_out d p j :
  ~ (p <= j < p + 4) -> get (fst (zeroPixel d p)) j = get d j.
Proof.
  intros Hj. unfold zeroPixel. simpl. rewrite !get_set_ne by lia. reflexivity.
Qed.

Lemma writes_zeroPixel d p :
  writes (snd (zeroPixel d p)) = [p; p + 1; p + 2; p + 3].
Proof. reflexivity. Qed.

(** ** The tolerance predicate *)

Lemma matches_ext B d d' i :
  (forall k, 0 <= k < 3 -> get d' (i + k) = get d (i + k)) ->
  matches B d' i = matches B d i.
Proof.
  intros H. unfold matches.
  pose proof (H 0 ltac:(lia)) as H0. rewrite Z.add_0_r in H0.
  rewrite H0, (H 1), (H 2) by lia. reflexivity.
Qed.

Lemma matches_Some B d i :
  matches B d i = true -> exists v, get d i = Some v.
Proof.
  unfold matches. destruct (get d i) as [v|]; [eauto|].
  unfold js_ge. destruct (rMin B); simpl; discriminate.
Qed.

Lemma matches_range B d i :
  matches B d i = true -> 0 <= i < Z.of_nat (length d).
Proof. intros H. apply matches_Some in H as [v Hv]. eapply get_Some_range; exact Hv. Qed.

Lemma writes_matchTolerance B d i : writes (snd (matchTolerance B d i)) = [].
Proof. reflexivity. Qed.

Lemma conn_mono R (S S' : Z * Z -> Prop) s p :
  (forall q, S q -> S' q) -> conn R S s p -> conn R S' s p.
Proof.
  intros H C. induction C.
  - apply conn_here. auto.
  - eapply conn_next; eauto.
Qed.

Lemma conn_end R S s p : conn R S s p -> S p.
Proof. intros C. destruct C; assumption. Qed.

(** ** Geometry of the buffer *)

Section Grid.

Variables width height : Z.

Local Abbreviation pos := (pos width).
Local Abbreviation inGrid := (inGrid width height).
Local Abbreviation validBuffer := (validBuffer width height).
Local Abbreviation zeroed := (zeroed width).
Local Abbreviation zeroedIn := (zeroedIn width height).
Local Abbreviation runEffect := (runEffect width height).

Lemma pos_range x y :
  inGrid (x, y) -> 0 <= pos x y /\ pos x y + 3 < width * height * 4.
Proof. unfold inGrid, pos. simpl. intros [Hx Hy]. nia. Qed.

Lemma pos_inj x y k x' y' k' :
  inGrid (x, y) -> inGrid (x', y') -> 0 <= k < 4 -> 0 <= k' < 4 ->
  pos x y + k = pos x' y' + k' -> x = x' /\ y = y' /\ k = k'.
Proof.
  unfold inGrid, pos. simpl. intros [Hx Hy] [Hx' Hy'] Hk Hk' E.
  assert (k = k') by lia.
  assert (y * width + x = y' * width + x') as E' by lia.
  assert (y = y') by nia.
  subst. lia.
Qed.

Lemma pos_left x y : pos x y - 4 = pos (x - 1) y.
Proof. unfold pos. ring. Qed.

Lemma pos_right x y : pos x y + 4 = pos (x + 1) y.
Proof. unfold pos. ring. Qed.

Lemma pos_diag x y : pos x y + 4 - width * 4 = pos (x + 1) (y - 1).
Proof. unfold pos. ring. Qed.

Lemma pos_down x y : pos x y + width * 4 = pos x (y + 1).
Proof. unfold pos. ring. Qed.

Lemma pos_up x y : pos x y - width * 4 = pos x (y - 1).
Proof. unfold pos. ring. Qed.

Lemma pos_above x : 0 <= x < width -> pos x (-1) < 0.
Proof. unfold pos. lia. Qed.

Lemma pixel_eq d d' i :
  (forall k, 0 <= k < 4 -> get d' (i + k) = get d (i + k)) -> pixel d' i = pixel d i.
Proof.
  intros H. unfold pixel.
  pose proof (H 0 ltac:(lia)) as H0. rewrite Z.add_0_r in H0.
  rewrite H0, (H 1), (H 2), (H 3) by lia. reflexivity.
Qed.

Lemma pixel_zero d i :
  (forall k, 0 <= k < 4 -> get d (i + k) = Some 0) -> pixel d i = zeroPx.
Proof.
  intros H. unfold pixel, zeroPx.
  pose proof (H 0 ltac:(lia)) as H0. rewrite Z.add_0_r in H0.
  rewrite H0, (H 1), (H 2), (H 3) by lia. reflexivity.
Qed.

(** ** What one pass over a column does *)

Variable B : Bounds.

Local Abbreviation pushedFrom := (pushedFrom width height B).
Local Abbreviation frameInv := (frameInv width height B).

Lemma walkUp_spec d x n : forall y y1 p1 e,
  n = Z.to_nat (y + 1) -> -1 <= y ->
  walkUp width B n d y (pos x y) = (y1, p1, e) ->
  exists r, -1 <= r <= y /\ y1 = r - 1 /\ p1 = pos x r /\
    (forall r', r < r' <= y -> matches B d (pos x r') = true) /\
    (0 <= r -> matches B d (pos x r) = false) /\
    writes e = [].
Proof.
  induction n as [|n IH]; intros y y1 p1 e Hn Hy H; simpl in H.
  - injection H as <- <- <-. exists y. repeat split; try lia.
  - destruct (0 <=? y) eqn:E0; [apply Z.leb_le in E0|apply Z.leb_gt in E0; lia].
    destruct (matches B d (pos x y)) eqn:Em.
    + rewrite pos_up in H.
      destruct (walkUp width B n d (y - 1) (pos x (y - 1))) as [[y' p'] e'] eqn:Hrec.
      injection H as <- <- <-.
      apply IH in Hrec as (r & Hr & -> & -> & Hall & Hstop & Hw); [|lia|lia].
      exists r. repeat split; try lia; auto.
      intros r' Hr'. destruct (Z.eq_dec r' y) as [->|Hne]; [assumption|apply Hall; lia].
    + injection H as <- <- <-. exists y. repeat split; try lia; auto.
Qed.

Lemma checkLeft_spec x y d st rl st' rl' e :
  0 <= x < width -> 0 <= y < height ->
  checkLeft B x y (pos x y) d st rl = (st', rl', e) ->
  writes e = [] /\
  exists new, st' = new ++ st /\
    Forall (fun q => inGrid q /\ q.1 <> x /\ matches B d (pos q.1 q.2) = true /\
                     step (x, y) q) new.
Proof.
  intros Hx Hy. unfold checkLeft, matchTolerance. rewrite pos_left.
  destruct (0 <? x) eqn:Ex.
  - apply Z.ltb_lt in Ex.
    destruct (matches B d (pos (x - 1) y)) eqn:Em.
    + destruct rl; simpl; intros H; injection H as <- <- <-.
      * split; [reflexivity|]. exists []. split; [reflexivity|constructor].
      * split; [reflexivity|]. exists [(x - 1, y)]. split; [reflexivity|].
        constructor; [|constructor].
        unfold inGrid, step. simpl. repeat split; try lia; auto.
    + destruct rl; simpl; intros H; injection H as <- <- <-;
        (split; [reflexivity|]; exists []; split; [reflexivity|constructor]).
  - intros H; injection H as <- <- <-.
    split; [reflexivity|]. exists []. split; [reflexivity|constructor].
Qed.

Lemma matches_above_grid x d :
  0 <= x < width -> matches B d (pos x (-1)) = false.
Proof.
  intros Hx. destruct (matches B d (pos x (-1))) eqn:E; [|reflexivity].
  apply matches_range in E. pose proof (pos_above x). lia.
Qed.

Lemma checkRight_spec x y d st rl rr st' rl' rr' e :
  0 <= x < width -> 0 <= y < height ->
  checkRight width B x y (pos x y) d st rl rr = (st', rl', rr', e) ->
  writes e = [] /\
  exists new, st' = new ++ st /\
    Forall (fun q => inGrid q /\ q.1 <> x /\ matches B d (pos q.1 q.2) = true /\
                     step (x, y) q) new.
Proof.
  intros Hx Hy. unfold checkRight, matchTolerance. rewrite pos_diag, pos_right.
  destruct (x <? width - 1) eqn:Ex.
  - apply Z.ltb_lt in Ex.
    destruct (matches B d (pos (x + 1) y)) eqn:Em.
    + destruct rr; simpl; intros H; injection H as <- <- <- <-.
      * split; [reflexivity|]. exists []. split; [reflexivity|constructor].
      * split; [reflexivity|]. exists [(x + 1, y)]. split; [reflexivity|].
        constructor; [|constructor].
        unfold inGrid, step. simpl. repeat split; try lia; auto.
    + destruct (matches B d (pos (x + 1) (y - 1))) eqn:Em'.
      * assert (0 < y) as Hy0.
        { destruct (Z.eq_dec y 0) as [->|]; [|lia].
          change (0 - 1) with (-1) in Em'.
          rewrite matches_above_grid in Em' by lia. discriminate. }
        destruct rl; simpl; intros H; injection H as <- <- <- <-.
        -- split; [reflexivity|]. exists []. split; [reflexivity|constructor].
        -- split; [reflexivity|]. exists [(x + 1, y - 1)]. split; [reflexivity|].
           constructor; [|constructor].
           unfold inGrid, step. simpl. repeat split; try lia; auto 6.
      * destruct rr; simpl; intros H; injection H as <- <- <- <-;
          (split; [reflexivity|]; exists []; split; [reflexivity|constructor]).
  - intros H; injection H as <- <- <- <-.
    split; [reflexivity|]. exists []. split; [reflexivity|constructor].
Qed.

Lemma get_zeroPixel_same d x t k :
  validBuffer d -> inGrid (x, t) -> 0 <= k < 4 ->
  get (fst (zeroPixel d (pos x t))) (pos x t + k) = Some 0.
Proof.
  intros Hd Hg Hk. pose proof (pos_range x t Hg).
  unfold validBuffer in Hd.
  apply get_zeroPixel_in; lia.
Qed.

Lemma get_zeroPixel_other d x t x' y' k :
  inGrid (x, t) -> inGrid (x', y') -> ~ (x' = x /\ y' = t) -> 0 <= k < 4 ->
  get (fst (zeroPixel d (pos x t))) (pos x' y' + k) = get d (pos x' y' + k).
Proof.
  intros Hg Hg' Hne Hk. apply get_zeroPixel_out. intros Hin.
  destruct (pos_inj x' y' k x t (pos x' y' + k - pos x t)) as (? & ? & ?);
    try assumption; try lia.
Qed.

Lemma matches_zeroPixel_other d x t x' y' :
  inGrid (x, t) -> inGrid (x', y') -> ~ (x' = x /\ y' = t) ->
  matches B (fst (zeroPixel d (pos x t))) (pos x' y') = matches B d (pos x' y').
Proof.
  intros Hg Hg' Hne. apply matches_ext. intros k Hk.
  apply get_zeroPixel_other; try assumption. lia.
Qed.

Lemma scanBody_spec x t s s1 e1 :
  inGrid (x, t) -> validBuffer (s_data s) -> s_pos s = pos x t ->
  scanBody width B x t s = (s1, e1) ->
  s_y s1 = t /\ s_pos s1 = pos x (t + 1) /\
  s_data s1 = fst (zeroPixel (s_data s) (pos x t)) /\
  writes e1 = [pos x t; pos x t + 1; pos x t + 2; pos x t + 3] /\
  exists new, s_stack s1 = new ++ s_stack s /\
    Forall (fun q => inGrid q /\ q.1 <> x /\
                     matches B (s_data s) (pos q.1 q.2) = true /\ step (x, t) q) new.
Proof.
  intros Hg Hd Hp. unfold scanBody. rewrite Hp.
  set (d1 := fst (zeroPixel (s_data s) (pos x t))).
  change (zeroPixel (s_data s) (pos x t)) with
    (d1, [EvWrite (pos x t); EvWrite (pos x t + 1); EvWrite (pos x t + 2);
          EvWrite (pos x t + 3)]).
  cbv beta iota.
  destruct (checkLeft B x t (pos x t) d1 (s_stack s) (s_reachLeft s))
    as [[st1 rl1] e2] eqn:HL.
  destruct (checkRight width B x t (pos x t) d1 st1 rl1 (s_reachRight s))
    as [[[st2 rl2] rr2] e3] eqn:HR.
  destruct Hg as [Hx Ht]; simpl in Hx, Ht.
  apply checkLeft_spec in HL as (WL & newL & -> & FL); [|assumption..].
  apply checkRight_spec in HR as (WR & newR & -> & FR); [|assumption..].
  intros H; injection H as <- <-. simpl.
  repeat split.
  - apply pos_down.
  - rewrite !writes_app, WL, WR. reflexivity.
  - exists (newR ++ newL). split; [apply app_assoc|].
    apply Forall_app. split; [eapply Forall_impl; [exact FR|]|eapply Forall_impl; [exact FL|]];
      intros [qx qy] (Gq & Hne & Hm & Hs); simpl in *; repeat split; try assumption;
      try apply Gq; (rewrite <- Hm; symmetry; apply matches_zeroPixel_other;
        [split; assumption|assumption|simpl; lia]).
Qed.

Lemma runEffect_nil x t d e : writes e = [] -> runEffect x t t d d e.
Proof.
  intros He. unfold runEffect. rewrite He.
  split; [reflexivity|]. split; [intros; lia|]. split; [reflexivity|].
  intros x' y' _. simpl. split; [intros []|lia].
Qed.

Lemma validBuffer_zeroPixel d p :
  validBuffer d -> validBuffer (fst (zeroPixel d p)).
Proof. unfold validBuffer. rewrite length_zeroPixel. auto. Qed.

Lemma walkDown_spec x n : forall s s' e,
  0 <= x < width -> 0 <= s_y s + 1 <= height ->
  n = Z.to_nat (height - 1 - s_y s) ->
  validBuffer (s_data s) -> s_pos s = pos x (s_y s + 1) ->
  walkDown width height B n x s = (s', e) ->
  exists b, s_y s + 1 <= b <= height /\
    (forall r, s_y s + 1 <= r < b -> matches B (s_data s) (pos x r) = true) /\
    (b < height -> matches B (s_data s) (pos x b) = false) /\
    runEffect x (s_y s + 1) b (s_data s) (s_data s') e /\
    exists new, s_stack s' = new ++ s_stack s /\
      Forall (pushedFrom x (s_y s + 1) b (s_data s)) new.
Proof.
  induction n as [|n IH]; intros s s' e Hx Hy Hn Hd Hp H; simpl in H.
  - injection H as <- <-. exists (s_y s + 1). simpl.
    split; [lia|]. split; [intros; lia|]. split; [intros; lia|].
    split; [apply runEffect_nil; reflexivity|].
    exists []. split; [reflexivity|constructor].
  - destruct (s_y s <? height - 1) eqn:Ey;
      [apply Z.ltb_lt in Ey|apply Z.ltb_ge in Ey; lia].
    set (t := s_y s + 1) in *.
    unfold matchTolerance in H. rewrite Hp in H.
    destruct (matches B (s_data s) (pos x t)) eqn:Em.
    + destruct (scanBody width B x t s) as [s1 e1] eqn:Hbody.
      destruct (walkDown width height B n x s1) as [s2 e2] eqn:Hrec.
      injection H as <- <-.
      assert (inGrid (x, t)) as Hg by (unfold inGrid; simpl; lia).
      apply scanBody_spec in Hbody as (Hy1 & Hp1 & Hd1 & Hw1 & new1 & Hst1 & Fnew1);
        try assumption.
      apply IH in Hrec as (b & Hb & Hall & Hmax & (Hlen & Hz & Hs & Hw) & new2 & Hst2 & Fnew2);
        rewrite ?Hy1, ?Hd1; try assumption; try lia;
        [|apply validBuffer_zeroPixel; assumption].
      rewrite Hy1 in *. rewrite Hd1 in *.
      exists b. split; [lia|].
      split.
      { intros r Hr. destruct (Z.eq_dec r t) as [->|Hne]; [assumption|].
        rewrite <- (Hall r) by lia. symmetry.
        apply matches_zeroPixel_other; try assumption; [unfold inGrid; simpl; lia|lia]. }
      split.
      { intros Hb'. rewrite <- (Hmax Hb'). symmetry.
        apply matches_zeroPixel_other; try assumption; [unfold inGrid; simpl; lia|lia]. }
      split.
      { unfold runEffect. split; [rewrite Hlen; apply length_zeroPixel|].
        split.
        { intros y k Hyr Hk. destruct (Z.eq_dec y t) as [->|Hne].
          - rewrite Hs; [apply get_zeroPixel_same; assumption|assumption|assumption|lia].
          - apply Hz; lia. }
        split.
        { intros x' y' k Hg' Hk Hout. rewrite Hs; try assumption; [|lia].
          apply get_zeroPixel_other; try assumption. lia. }
        intros x' y' Hg'.
        rewrite !writes_read, writes_app, Hw1.
        rewrite in_app_iff, (Hw x' y' Hg').
        split.
        - intros [Hin|Hin]; [|lia].
          assert (pos x' y' + 0 = pos x t + (pos x' y' - pos x t)) as E by lia.
          apply pos_inj in E; try assumption; try lia.
          simpl in Hin. lia.
        - intros [-> Hr]. destruct (Z.eq_dec y' t) as [->|Hne]; [left; simpl; auto|right; lia]. }
      exists (new2 ++ new1). split; [rewrite Hst2, Hst1; apply app_assoc|].
      apply Forall_app. split.
      * eapply Forall_impl; [exact Fnew2|].
        intros [qx qy] (Gq & Hne & Hm & r & Hr & Hs'). simpl in *.
        split; [assumption|]. split; [assumption|].
        split; [|exists r; split; [lia|assumption]].
        rewrite <- Hm. symmetry.
        apply matches_zeroPixel_other; try assumption;
          unfold inGrid in *; simpl in *; lia.
      * eapply Forall_impl; [exact Fnew1|].
        intros q (Gq & Hne & Hm & Hs'). split; [assumption|]. split; [assumption|].
        split; [assumption|]. exists t. split; [lia|assumption].
    + injection H as <- <-. exists t. simpl.
      split; [lia|]. split; [intros; lia|]. split; [intros; assumption|].
      split; [apply runEffect_nil; reflexivity|].
      exists []. split; [reflexivity|constructor].
Qed.

Lemma runEffect_log x t b d d' e e' :
  writes e' = writes e -> runEffect x t b d d' e -> runEffect x t b d d' e'.
Proof. unfold runEffect. intros ->. auto. Qed.

(** One iteration of the outer loop, popping [(x, y0)]: it zeroes the rows
    [t .. b - 1] of column [x], which all matched, and pushes neighbours of
    these rows. A popped pixel that matches lies in the run; one that does
    not sends the run to the row below it. *)
Lemma iter_spec x y0 rest d s' e :
  inGrid (x, y0) -> validBuffer d ->
  iter width height B (mkState d ((x, y0) :: rest)) = (s', e) ->
  exists t b, 0 <= t <= b /\ b <= height /\ t <= y0 + 1 /\
    (matches B d (pos x y0) = true -> t <= y0 < b) /\
    (matches B d (pos x y0) = false -> t = y0 + 1) /\
    (forall r, t <= r < b -> matches B d (pos x r) = true) /\
    runEffect x t b d (data s') e /\
    exists new, pixelStack s' = new ++ rest /\ Forall (pushedFrom x t b d) new.
Proof.
  intros [Hx Hy] Hd. simpl in Hx, Hy. unfold iter. simpl.
  fold (pos x y0).
  destruct (walkUp width B (Z.to_nat (y0 + 1)) d y0 (pos x y0)) as [[y1 p1] e1] eqn:Hup.
  apply walkUp_spec in Hup as (r & Hr & -> & -> & Hall & Hstop & Hw1); [|reflexivity|lia].
  rewrite pos_down. replace (r - 1 + 1) with r by lia.
  destruct (walkDown width height B (Z.to_nat (height - 1 - r)) x
              (mkScan r (pos x (r + 1)) d rest false false)) as [sc e2] eqn:Hdown.
  apply walkDown_spec in Hdown as (b & Hb & Hrun & Hmax & Heff & new & Hst & Fnew);
    simpl; try assumption; try lia; try reflexivity.
  simpl in *. intros H; injection H as <- <-. simpl.
  exists (r + 1), b.
  split; [lia|]. split; [lia|]. split; [lia|].
  split.
  { intros Hm. assert (r < y0) as Hlt.
    { destruct (Z.eq_dec r y0) as [->|]; [|lia]. rewrite Hstop in Hm by lia. discriminate. }
    split; [lia|].
    destruct (Z_lt_le_dec y0 b) as [|Hle]; [assumption|].
    rewrite Hall in Hmax by lia. specialize (Hmax ltac:(lia)). discriminate. }
  split.
  { intros Hm. destruct (Z.eq_dec r y0) as [->|]; [reflexivity|].
    rewrite Hall in Hm by lia. discriminate. }
  split; [assumption|].
  split; [|exists new; split; assumption].
  eapply runEffect_log; [|exact Heff]. rewrite writes_app, Hw1. reflexivity.
Qed.

(** ** The frame invariant of the outer loop *)

Lemma zeroed_app l e q : zeroed (l ++ e) q <-> zeroed l q \/ zeroed e q.
Proof. unfold zeroed. rewrite writes_app. apply in_app_iff. Qed.

Lemma zeroed_dec l q : {zeroed l q} + {~ zeroed l q}.
Proof. apply In_dec, Z.eq_dec. Qed.

Lemma frameInv_start orig x y :
  validBuffer orig -> inGrid (x, y) -> frameInv orig (start x y orig) [].
Proof.
  intros Hd Hg. constructor; simpl.
  - assumption.
  - constructor; [assumption|constructor].
  - intros ? ? ? [].
  - reflexivity.
Qed.

Lemma frameInv_matches orig s l x y :
  frameInv orig s l -> inGrid (x, y) -> ~ zeroed l (x, y) ->
  matches B (data s) (pos x y) = matches B orig (pos x y).
Proof.
  intros I Hg Hz. apply matches_ext. intros k Hk.
  apply (fi_same I); try assumption. lia.
Qed.

Lemma frameInv_iter orig s l s' e :
  frameInv orig s l -> iter width height B s = (s', e) -> frameInv orig s' (l ++ e).
Proof.
  intros I H. destruct s as [d st]. destruct st as [|[x y0] rest].
  - unfold iter in H. simpl in H. injection H as <- <-. rewrite app_nil_r. assumption.
  - pose proof (fi_valid I) as Hd. pose proof (fi_stack I) as Hst.
    simpl in Hd, Hst. apply Forall_cons in Hst as [Hg Hrest].
    apply iter_spec in H
      as (t & b & Ht & Hb & Hty & _ & _ & Hrun & (Hlen & Hz & Hs & Hw) & new & Hnew & Fnew);
      try assumption.
    assert (forall x' y', inGrid (x', y') ->
              (zeroed (l ++ e) (x', y') <-> zeroed l (x', y') \/ (x' = x /\ t <= y' < b)))
      as Hzd.
    { intros x' y' Hg'. rewrite zeroed_app. unfold zeroed at 2. simpl.
      rewrite (Hw x' y' Hg'). reflexivity. }
    constructor.
    + unfold validBuffer in *. rewrite Hlen. assumption.
    + rewrite Hnew. apply Forall_app. split; [|assumption].
      eapply Forall_impl; [exact Fnew|]. intros q Hq. apply Hq.
    + intros x' y' Hg' Hzero. apply Hzd in Hzero; [|assumption].
      destruct (zeroed_dec l (x', y')) as [Hold|Hnot].
      * destruct (fi_zero I x' y' Hg' Hold) as [Hzero' Hm]. split; [|assumption].
        intros k Hk.
        destruct (Z.eq_dec x' x) as [->|Hne];
          [destruct (Z_le_dec t y'); [destruct (Z_lt_dec y' b)|]|].
        -- apply Hz; lia.
        -- rewrite Hs; [apply Hzero'; assumption|assumption|assumption|lia].
        -- rewrite Hs; [apply Hzero'; assumption|assumption|assumption|lia].
        -- rewrite Hs; [apply Hzero'; assumption|assumption|assumption|lia].
      * destruct Hzero as [Hold|[-> Hr]]; [contradiction|].
        split; [intros k Hk; apply Hz; assumption|].
        rewrite <- (frameInv_matches orig _ l x y' I Hg' Hnot). simpl.
        apply Hrun. assumption.
    + intros x' y' k Hg' Hnot Hk.
      rewrite Hzd in Hnot by assumption.
      rewrite Hs; try assumption; [|tauto].
      apply (fi_same I); try assumption. tauto.
Qed.

Lemma frameInv_run orig n : forall s l s' e,
  frameInv orig s l -> run width height B n s = (s', e) -> frameInv orig s' (l ++ e).
Proof.
  induction n as [|n IH]; intros s l s' e I H; simpl in H.
  - injection H as <- <-. rewrite app_nil_r. assumption.
  - destruct (iter width height B s) as [s1 e1] eqn:H1.
    destruct (run width height B n s1) as [s2 e2] eqn:H2.
    injection H as <- <-. rewrite app_assoc.
    eapply IH; [|exact H2]. eapply frameInv_iter; eassumption.
Qed.

(** ** The connectivity invariant of the outer loop *)

Variable seed : Z * Z.

Local Abbreviation anchored := (anchored width height seed).
Local Abbreviation connInv := (connInv width height B seed).

Lemma zeroedIn_app l e q : zeroedIn l q -> zeroedIn (l ++ e) q.
Proof. intros [Hg Hz]. split; [assumption|]. apply zeroed_app. auto. Qed.

Lemma anchored_app l e q : anchored l q -> anchored (l ++ e) q.
Proof.
  intros [->|(w & Hw & Hs)]; [left; reflexivity|].
  right. exists w. split; [apply zeroedIn_app|]; assumption.
Qed.

Lemma conn_down (S : Z * Z -> Prop) x a n :
  conn step S seed (x, a) ->
  (forall r, a < r <= a + Z.of_nat n -> S (x, r)) ->
  conn step S seed (x, a + Z.of_nat n).
Proof.
  intros C. induction n as [|n IH]; intros H.
  - replace (a + Z.of_nat 0) with a by lia. assumption.
  - eapply (conn_next _ _ _ (x, a + Z.of_nat n)).
    + apply IH. intros r Hr. apply H. lia.
    + unfold step. simpl. right; right; right; left. f_equal. lia.
    + apply H. lia.
Qed.

Lemma conn_up (S : Z * Z -> Prop) x a n :
  conn step S seed (x, a) ->
  (forall r, a - Z.of_nat n <= r < a -> S (x, r)) ->
  conn step S seed (x, a - Z.of_nat n).
Proof.
  intros C. induction n as [|n IH]; intros H.
  - replace (a - Z.of_nat 0) with a by lia. assumption.
  - eapply (conn_next _ _ _ (x, a - Z.of_nat n)).
    + apply IH. intros r Hr. apply H. lia.
    + unfold step. simpl. right; right; left. f_equal. lia.
    + apply H. lia.
Qed.

(** From one pixel of a column to another, through the rows in between. *)
Lemma conn_column (S : Z * Z -> Prop) x a r :
  conn step S seed (x, a) ->
  (forall r', Z.min a r <= r' <= Z.max a r -> r' <> a -> S (x, r')) ->
  conn step S seed (x, r).
Proof.
  intros C H. destruct (Z_le_dec a r) as [Hle|Hgt].
  - replace r with (a + Z.of_nat (Z.to_nat (r - a))) by lia.
    apply conn_down; [assumption|]. intros r' Hr'. apply H; lia.
  - replace r with (a - Z.of_nat (Z.to_nat (a - r))) by lia.
    apply conn_up; [assumption|]. intros r' Hr'. apply H; lia.
Qed.

Lemma connInv_start orig x y :
  seed = (x, y) -> matches B orig (pos x y) = true -> connInv (start x y orig) [].
Proof.
  intros Hs Hm. constructor; simpl.
  - constructor; [|constructor]. right. simpl. split; [assumption|].
    left. symmetry. assumption.
  - intros p [_ []].
Qed.

Lemma connInv_iter orig s l s' e :
  frameInv orig s l -> connInv s l ->
  iter width height B s = (s', e) -> connInv s' (l ++ e).
Proof.
  intros I K H. destruct s as [d st]. destruct st as [|[x y0] rest].
  - unfold iter in H. simpl in H. injection H as <- <-. rewrite app_nil_r. assumption.
  - pose proof (fi_valid I) as Hd. pose proof (fi_stack I) as Hst.
    pose proof (ci_stack K) as Kst.
    simpl in Hd, Hst, Kst. apply Forall_cons in Hst as [Hg Hrest].
    apply Forall_cons in Kst as [Kq Krest]. simpl in Kq.
    apply iter_spec in H
      as (t & b & Ht & Hb & Hty & Hin & Hout & Hrun & (Hlen & Hz & Hs & Hw) & new & Hnew & Fnew);
      try assumption.
    assert (forall x' y', inGrid (x', y') ->
              (zeroed (l ++ e) (x', y') <-> zeroed l (x', y') \/ (x' = x /\ t <= y' < b)))
      as Hzd.
    { intros x' y' Hg'. rewrite zeroed_app. unfold zeroed at 2. simpl.
      rewrite (Hw x' y' Hg'). reflexivity. }
    assert (forall r, t <= r < b -> zeroedIn (l ++ e) (x, r)) as Hcol.
    { intros r Hr. assert (inGrid (x, r)) as Hgr.
      { destruct Hg as [Hx Hy]. split; simpl in *; lia. }
      split; [assumption|]. apply Hzd; [assumption|]. right. lia. }
    (* the popped pixel is connected to the seed, once this run is zeroed *)
    assert (t < b -> conn step (zeroedIn (l ++ e)) seed (x, y0)) as Hq.
    { intros Hne. destruct (matches B d (pos x y0)) eqn:Em.
      - specialize (Hin eq_refl).
        destruct Kq as [Hzq|[_ [Hseed|(w & Hw' & Hstep)]]].
        + eapply conn_mono; [|apply (ci_conn K); split; assumption].
          intros q. apply zeroedIn_app.
        + rewrite Hseed. apply conn_here. rewrite <- Hseed. apply Hcol. lia.
        + eapply conn_next; [|exact Hstep|apply Hcol; lia].
          eapply conn_mono; [|apply (ci_conn K); assumption].
          intros q. apply zeroedIn_app.
      - destruct Kq as [Hzq|[Hm _]]; [|congruence].
        eapply conn_mono; [|apply (ci_conn K); split; assumption].
        intros q. apply zeroedIn_app. }
    assert (forall r, t <= r < b -> conn step (zeroedIn (l ++ e)) seed (x, r)) as Hconn.
    { intros r Hr. apply (conn_column _ x y0); [apply Hq; lia|].
      intros r' Hr' Hne. apply Hcol.
      destruct (matches B d (pos x y0)) eqn:Em.
      - specialize (Hin eq_refl). lia.
      - specialize (Hout eq_refl). lia. }
    constructor.
    + rewrite Hnew. apply Forall_app. split.
      * eapply Forall_impl; [exact Fnew|].
        intros [qx qy] (Gq & Hne & Hm & r & Hr & Hstep). simpl in *.
        right. split.
        -- rewrite <- Hm. apply matches_ext. intros k Hk. apply Hs; [assumption|lia|tauto].
        -- right. exists (x, r). split; [apply Hcol|]; assumption.
      * apply Forall_forall. intros [qx qy] Hel.
        pose proof (proj1 (Forall_forall _ _) Krest _ Hel) as Kq'.
        pose proof (proj1 (Forall_forall _ _) Hrest _ Hel) as Gq'.
        simpl in *.
        destruct Kq' as [Hzq|[Hm Ha]]; [left; apply zeroed_app; auto|].
        destruct (Z.eq_dec qx x) as [->|Hne];
          [destruct (Z_le_dec t qy); [destruct (Z_lt_dec qy b)|]|].
        -- left. apply Hzd; [assumption|]. right. lia.
        -- right. split; [|apply anchored_app; assumption].
           rewrite <- Hm. apply matches_ext. intros k Hk. apply Hs; [assumption|lia|lia].
        -- right. split; [|apply anchored_app; assumption].
           rewrite <- Hm. apply matches_ext. intros k Hk. apply Hs; [assumption|lia|lia].
        -- right. split; [|apply anchored_app; assumption].
           rewrite <- Hm. apply matches_ext. intros k Hk. apply Hs; [assumption|lia|lia].
    + intros [px py] [Gp Hzp]. apply Hzd in Hzp; [|assumption].
      destruct (zeroed_dec l (px, py)) as [Hold|Hnot].
      * eapply conn_mono; [|apply (ci_conn K); split; assumption].
        intros q. apply zeroedIn_app.
      * destruct Hzp as [Hold|[-> Hr]]; [contradiction|]. apply Hconn. assumption.
Qed.

Lemma connInv_run orig n : forall s l s' e,
  frameInv orig s l -> connInv s l ->
  run width height B n s = (s', e) -> connInv s' (l ++ e).
Proof.
  induction n as [|n IH]; intros s l s' e I K H; simpl in H.
  - injection H as <- <-. rewrite app_nil_r. assumption.
  - destruct (iter width height B s) as [s1 e1] eqn:H1.
    destruct (run width height B n s1) as [s2 e2] eqn:H2.
    injection H as <- <-. rewrite app_assoc.
    eapply IH; [| |exact H2].
    + eapply frameInv_iter; eassumption.
    + eapply connInv_iter; eassumption.
Qed.

(** The first iteration zeroes the seed, when the seed matches. *)
Lemma iter_start_seed orig x y s' e :
  validBuffer orig -> inGrid (x, y) -> matches B orig (pos x y) = true ->
  iter width height B (start x y orig) = (s', e) -> zeroed e (x, y).
Proof.
  intros Hd Hg Hm H. unfold start in H.
  apply iter_spec in H
    as (t & b & Ht & Hb & Hty & Hin & _ & _ & (_ & _ & _ & Hw) & _); try assumption.
  unfold zeroed. simpl. apply Hw; [assumption|]. specialize (Hin Hm). lia.
Qed.

End Grid.

(** ** Bounds taken from the seed *)

Lemma own_bounds (v : Z) (tol : Q) :
  0 <= v -> (0 <= tol)%Q ->
  js_ge (Some (inject_Z v)) (Some (inject_Z v * (1 - tol))%Q) &&
  js_le (Some (inject_Z v)) (Some (inject_Z v * (1 + tol))%Q) = true.
Proof.
  intros Hv Ht. unfold js_ge, js_le.
  assert (0 <= inject_Z v)%Q as Hq by (change 0%Q with (inject_Z 0); rewrite <- Zle_Qle; assumption).
  apply andb_true_iff. split; apply Qle_bool_iff; nra.
Qed.

Lemma zero_bounds (v : Z) (tol : Q) :
  js_ge (Some (inject_Z v)) (Some (inject_Z 0 * (1 - tol))%Q) &&
  js_le (Some (inject_Z v)) (Some (inject_Z 0 * (1 + tol))%Q) = true ->
  v = 0.
Proof.
  unfold js_ge, js_le. intros H. apply andb_true_iff in H as [H1 H2].
  apply Qle_bool_iff in H1, H2.
  assert (inject_Z 0 <= inject_Z v)%Q as H1' by (change (inject_Z 0) with 0%Q in *; nra).
  assert (inject_Z v <= inject_Z 0)%Q as H2' by (change (inject_Z 0) with 0%Q in *; nra).
  rewrite <- Zle_Qle in H1', H2'. lia.
Qed.

(** A pixel within the bounds taken from itself: lines 84-90 and 102. *)
Lemma matches_self d i tol r g b :
  get d i = Some r -> get d (i + 1) = Some g -> get d (i + 2) = Some b ->
  0 <= r -> 0 <= g -> 0 <= b -> (0 <= tol)%Q ->
  matches (computeBounds d i tol) d i = true.
Proof.
  intros Hr Hg Hb Pr Pg Pb Ht. unfold matches, computeBounds.
  cbn [rMax gMax bMax rMin gMin bMin]. rewrite Hr, Hg, Hb. cbn [of_byte js_mul].
  rewrite !own_bounds by assumption. reflexivity.
Qed.

(** Bounds taken from a pixel whose R, G and B are 0 admit only such pixels. *)
Lemma matches_zero_seed d i tol j :
  get d i = Some 0 -> get d (i + 1) = Some 0 -> get d (i + 2) = Some 0 ->
  matches (computeBounds d i tol) d j = true ->
  get d j = Some 0 /\ get d (j + 1) = Some 0 /\ get d (j + 2) = Some 0.
Proof.
  intros Hr Hg Hb. unfold matches, computeBounds.
  cbn [rMax gMax bMax rMin gMin bMin]. rewrite Hr, Hg, Hb. cbn [of_byte js_mul].
  intros H.
  apply andb_true_iff in H as [H H3]. apply andb_true_iff in H as [H1 H2].
  destruct (get d j) as [r|]; [|simpl in H1; discriminate].
  destruct (get d (j + 1)) as [g|]; [|simpl in H2; discriminate].
  destruct (get d (j + 2)) as [b|]; [|simpl in H3; discriminate].
  cbn [of_byte] in H1, H2, H3.
  apply zero_bounds in H1, H2, H3. subst. auto.
Qed.

Lemma get_byte (d : list Z) i :
  Forall (fun v => 0 <= v <= 255) d -> 0 <= i < Z.of_nat (length d) ->
  exists v, get d i = Some v /\ 0 <= v <= 255.
Proof.
  intros Hb Hi. destruct (get_in_range d i Hi) as [v Hv]. exists v. split; [assumption|].
  unfold get in Hv. destruct (i <? 0); [discriminate|].
  eapply (proj1 (Forall_lookup _ _) Hb). exact Hv.
Qed.

Lemma seed_matches width height x y d tol :
  validInput width height x y d tol ->
  matches (seedBounds width x y d tol) d (pos width x y) = true.
Proof.
  intros (Hd & Hb & Hg & Ht). unfold seedBounds. fold (pos width x y).
  pose proof (pos_range width height x y Hg) as Hp. unfold validBuffer in Hd.
  destruct (get_byte d (pos width x y) Hb) as (r & Hr & Pr); [lia|].
  destruct (get_byte d (pos width x y + 1) Hb) as (g & Hg' & Pg); [lia|].
  destruct (get_byte d (pos width x y + 2) Hb) as (b & Hb' & Pb); [lia|].
  eapply matches_self; eauto; lia.
Qed.

(** Both invariants hold after any number of iterations. *)
Lemma fillRun_inv width height x y d tol n s l :
  validInput width height x y d tol ->
  fillRun width height x y d tol n = (s, l) ->
  frameInv width height (seedBounds width x y d tol) d s l /\
  connInv width height (seedBounds width x y d tol) (x, y) s l.
Proof.
  intros V H. pose proof (seed_matches _ _ _ _ _ _ V) as Hm.
  destruct V as (Hd & Hb & Hg & Ht). unfold fillRun in H.
  split.
  - eapply (frameInv_run _ _ _ d n _ []); [|exact H]. apply frameInv_start; assumption.
  - eapply (connInv_run _ _ _ _ d n _ []); [| |exact H].
    + apply frameInv_start; assumption.
    + apply connInv_start; [reflexivity|assumption].
Qed.

Lemma fillRun_seed width height x y d tol n s l :
  validInput width height x y d tol -> (0 < n)%nat ->
  fillRun width height x y d tol n = (s, l) ->
  zeroed width l (x, y).
Proof.
  intros V Hn H. pose proof (seed_matches _ _ _ _ _ _ V) as Hm.
  destruct V as (Hd & Hb & Hg & Ht). unfold fillRun in H.
  destruct n as [|n]; [lia|]. simpl in H.
  destruct (iter width height _ (start x y d)) as [s1 e1] eqn:H1.
  destruct (run width height _ n s1) as [s2 e2] eqn:H2.
  injection H as <- <-. apply zeroed_app. left.
  eapply iter_start_seed; eassumption.
Qed.

(** Once the stack is empty the state stays as it is. *)
Lemma run_done width height B n s :
  pixelStack s = [] -> run width height B n s = (s, []).
Proof.
  intros H. induction n as [|n IH]; [reflexivity|].
  simpl. unfold iter at 1. rewrite H. rewrite IH. reflexivity.
Qed.

Lemma floodFill_Some width height x y d tol fuel d' :
  floodFill width height x y d tol fuel = Some d' ->
  d' = data (fst (fillRun width height x y d tol fuel)) /\
  pixelStack (fst (fillRun width height x y d tol fuel)) = [] /\ (0 < fuel)%nat.
Proof.
  unfold floodFill.
  destruct (pixelStack (fst (fillRun width height x y d tol fuel))) eqn:E; [|discriminate].
  intros H; injection H as <-. repeat split.
  destruct fuel; [discriminate|lia].
Qed.

Lemma validInputb_ok width height x y d tol :
  validInputb width height x y d tol = true -> validInput width height x y d tol.
Proof.
  unfold validInputb, validInput, validBuffer, inGrid. intros H.
  apply andb_true_iff in H as [H Ht]. apply andb_true_iff in H as [H Hxy].
  apply andb_true_iff in H as [Hlen Hb].
  apply andb_true_iff in Hxy as [Hxy Hy2]. apply andb_true_iff in Hxy as [Hxy Hy1].
  apply andb_true_iff in Hxy as [Hx1 Hx2]. simpl.
  split; [lia|]. split; [|split; [lia|apply Qle_bool_iff; assumption]].
  clear -Hb. induction d as [|v d IH]; [constructor|].
  simpl in Hb. apply andb_true_iff in Hb as [Hv Hd].
  constructor; [lia|auto].
Qed.

Lemma zeroed_in_region width height x y d tol n s l p :
  validInput width height x y d tol ->
  fillRun width height x y d tol n = (s, l) ->
  zeroedIn width height l p ->
  matchingRegion width height (seedBounds width x y d tol) d (x, y) p.
Proof.
  intros V H Hz. destruct (fillRun_inv _ _ _ _ _ _ _ _ _ V H) as [I K].
  unfold matchingRegion. eapply conn_mono; [|apply (ci_conn K); assumption].
  intros [qx qy] [Hg Hq]. split; [assumption|].
  apply (fi_zero I); assumption.
Qed.

Lemma unzeroed_pixel width height x y d tol n s l px py :
  validInput width height x y d tol ->
  fillRun width height x y d tol n = (s, l) ->
  inGrid width height (px, py) -> ~ zeroed width l (px, py) ->
  pixel (data s) (pos width px py) = pixel d (pos width px py).
Proof.
  intros V H Hg Hz. destruct (fillRun_inv _ _ _ _ _ _ _ _ _ V H) as [I K].
  apply pixel_eq. intros k Hk. apply (fi_same I); assumption.
Qed.

Lemma zeroed_pixel width height x y d tol n s l px py :
  validInput width height x y d tol ->
  fillRun width height x y d tol n = (s, l) ->
  inGrid width height (px, py) -> zeroed width l (px, py) ->
  pixel (data s) (pos width px py) = zeroPx.
Proof.
  intros V H Hg Hz. destruct (fillRun_inv _ _ _ _ _ _ _ _ _ V H) as [I K].
  apply pixel_zero. apply (fi_zero I); assumption.
Qed.

Lemma run_pixel_original_or_zero width height x y d tol n px py :
  validInput width height x y d tol -> inGrid width height (px, py) ->
  let d' := data (fst (fillRun width height x y d tol n)) in
  pixel d' (pos width px py) = pixel d (pos width px py) \/
  pixel d' (pos width px py) = zeroPx.
Proof.
  intros V Hg. destruct (fillRun width height x y d tol n) as [s l] eqn:H. simpl.
  destruct (zeroed_dec width l (px, py)) as [Hz|Hz].
  - right. eapply zeroed_pixel; eassumption.
  - left. eapply unzeroed_pixel; eassumption.
Qed.

Lemma run_exterior_untouched width height x y d tol n px py :
  validInput width height x y d tol -> inGrid width height (px, py) ->
  ~ matchingRegion width height (seedBounds width x y d tol) d (x, y) (px, py) ->
  pixel (data (fst (fillRun width height x y d tol n))) (pos width px py) =
  pixel d (pos width px py).
Proof.
  intros V Hg Hout. destruct (fillRun width height x y d tol n) as [s l] eqn:H. simpl.
  eapply unzeroed_pixel; try eassumption.
  intros Hz. apply Hout. eapply zeroed_in_region; try eassumption. split; assumption.
Qed.

(** ** Running the fill on concrete buffers *)

Lemma run_add width height B n m s :
  run width height B (n + m) s =
  let (s1, e1) := run width height B n s in
  let (s2, e2) := run width height B m s1 in
  (s2, e1 ++ e2).
Proof.
  revert s. induction n as [|n IH]; intros s; simpl.
  - destruct (run width height B m s). reflexivity.
  - destruct (iter width height B s) as [s1 e1]. rewrite IH.
    destruct (run width height B n s1) as [s2 e2].
    destruct (run width height B m s2) as [s3 e3].
    rewrite app_assoc. reflexivity.
Qed.

(** When [n] iterations empty the stack, more fuel changes nothing. *)
Lemma fillRun_enough width height x y d tol n k s l :
  fillRun width height x y d tol n = (s, l) -> pixelStack s = [] ->
  fillRun width height x y d tol (n + k) = (s, l).
Proof.
  unfold fillRun. intros H Hs. rewrite run_add, H, run_done by assumption.
  rewrite app_nil_r. reflexivity.
Qed.

Lemma floodFill_enough width height x y d tol n k s l :
  fillRun width height x y d tol n = (s, l) -> pixelStack s = [] ->
  floodFill width height x y d tol (n + k) = Some (data s).
Proof.
  intros H Hs. unfold floodFill. rewrite (fillRun_enough _ _ _ _ _ _ _ k _ _ H Hs).
  simpl. rewrite Hs. reflexivity.
Qed.

Lemma fst_run_S width height B n s :
  fst (run width height B (S n) s) = fst (run width height B n (fst (iter width height B s))).
Proof.
  simpl. destruct (iter width height B s) as [s1 e1]. simpl.
  destruct (run width height B n s1). reflexivity.
Qed.

Lemma blackPair_cycle n : forall s,
  s = blackPairA \/ s = blackPairB ->
  pixelStack (fst (run 2 1 (seedBounds 2 0 0 blackPair DEFAULT_TOLERANCE_VALUE) n s)) <> [].
Proof.
  induction n as [|n IH]; intros s Hs.
  - simpl. destruct Hs as [-> | ->]; discriminate.
  - rewrite fst_run_S. apply IH. destruct Hs as [-> | ->]; [right|left]; reflexivity.
Qed.

Lemma checkerboard_run k :
  fillRun 4 4 0 0 checkerboard4x4 DEFAULT_TOLERANCE_VALUE (1 + k) =
  (mkState (clear ++ drop 4 checkerboard4x4) [],
   snd (fillRun 4 4 0 0 checkerboard4x4 DEFAULT_TOLERANCE_VALUE 1)).
Proof. apply fillRun_enough; reflexivity. Qed.

(** ** The claims *)

(** C1 (code defect). The claim is that the fill terminates on every valid
    input with at most [width * height] pushes. On the 2 x 1 buffer of two
    opaque black pixels, seed (0, 0), tolerance 0.05, the zeroed pixels
    still lie within the bounds taken from the black seed: the loop never
    empties its stack, whatever the number of iterations, and after three
    iterations it has pushed three times, more than the two pixels of the
    buffer. *)
Theorem C1_black_pair_never_returns :
  validInput 2 1 0 0 blackPair DEFAULT_TOLERANCE_VALUE /\
  (forall fuel, floodFill 2 1 0 0 blackPair DEFAULT_TOLERANCE_VALUE fuel = None) /\
  pushes (snd (fillRun 2 1 0 0 blackPair DEFAULT_TOLERANCE_VALUE 3)) = [(1, 0); (0, 0); (1, 0)].
Proof.
  split; [apply validInputb_ok; reflexivity|]. split; [|reflexivity].
  intros fuel. unfold floodFill, fillRun.
  destruct fuel as [|[|n]]; [reflexivity|reflexivity|].
  rewrite !fst_run_S.
  pose proof (blackPair_cycle n blackPairA (or_introl eq_refl)) as H.
  change (fst (iter 2 1 _ (fst (iter 2 1 _ (start 0 0 blackPair))))) with blackPairA.
  destruct (pixelStack _); [congruence|reflexivity].
Qed.

(** C2 (code defect). The claim is that every pixel 4-connected to the
    seed through matching pixels ends all zero. On [notch2x3], seed (0, 0),
    tolerance 0.05, the fill returns after three iterations and pixel
    (1, 2) is still gray, although the chain (0,0), (0,1), (0,2), (1,2) of
    matching pixels joins it to the seed: at row 1 the diagonal branch of
    line 141 is taken, so [reachRight] is not reset, and at row 2 the
    matching right neighbour is not pushed. *)
Theorem C2_notch_pixel_missed :
  validInput 2 3 0 0 notch2x3 DEFAULT_TOLERANCE_VALUE /\
  (forall k, floodFill 2 3 0 0 notch2x3 DEFAULT_TOLERANCE_VALUE (3 + k) =
             Some (concat [clear; clear; clear; blue; clear; gray])) /\
  conn step4 (matching 2 3 (seedBounds 2 0 0 notch2x3 DEFAULT_TOLERANCE_VALUE) notch2x3)
    (0, 0) (1, 2).
Proof.
  split; [apply validInputb_ok; reflexivity|]. split.
  - intros k.
    apply (floodFill_enough 2 3 0 0 notch2x3 DEFAULT_TOLERANCE_VALUE 3 k
             (mkState (concat [clear; clear; clear; blue; clear; gray]) [])
             (snd (fillRun 2 3 0 0 notch2x3 DEFAULT_TOLERANCE_VALUE 3)));
      reflexivity.
  - assert (forall q, q = (0, 0) \/ q = (0, 1) \/ q = (0, 2) \/ q = (1, 2) ->
              matching 2 3 (seedBounds 2 0 0 notch2x3 DEFAULT_TOLERANCE_VALUE) notch2x3 q)
      as Hm.
    { intros q [-> | [-> | [-> | ->]]]; (split; [unfold inGrid; simpl; lia|reflexivity]). }
    apply (conn_next _ _ _ (0, 2)); [|unfold step4; simpl; auto|apply Hm; auto].
    apply (conn_next _ _ _ (0, 1)); [|unfold step4; simpl; auto 6|apply Hm; auto].
    apply (conn_next _ _ _ (0, 0)); [|unfold step4; simpl; auto 6|apply Hm; auto].
    apply conn_here. apply Hm. auto.
Qed.

(** C5 (code defect). The claim is that the region zeroed under a
    tolerance is contained in the region zeroed under a larger one. On
    [shade2x3], seed (0, 0), the fill with tolerance 0 zeroes pixel (1, 2);
    with tolerance 0.05 the light pixel (1, 0) matches too, the diagonal
    branch of line 141 is taken at row 1, and pixel (1, 2) is not zeroed. *)
Theorem C5_larger_tolerance_loses_pixel :
  (0 < DEFAULT_TOLERANCE_VALUE)%Q /\
  validInput 2 3 0 0 shade2x3 0 /\
  validInput 2 3 0 0 shade2x3 DEFAULT_TOLERANCE_VALUE /\
  (forall k, floodFill 2 3 0 0 shade2x3 0 (2 + k) =
             Some (concat [clear; light; clear; blue; clear; clear])) /\
  (forall k, floodFill 2 3 0 0 shade2x3 DEFAULT_TOLERANCE_VALUE (3 + k) =
             Some (concat [clear; clear; clear; blue; clear; gray])) /\
  (forall k, zeroed 2 (snd (fillRun 2 3 0 0 shade2x3 0 (2 + k))) (1, 2)) /\
  (forall k, ~ zeroed 2 (snd (fillRun 2 3 0 0 shade2x3 DEFAULT_TOLERANCE_VALUE (3 + k))) (1, 2)).
Proof.
  assert (forall k, fillRun 2 3 0 0 shade2x3 0 (2 + k) =
            (mkState (concat [clear; light; clear; blue; clear; clear]) [],
             snd (fillRun 2 3 0 0 shade2x3 0 2))) as H0.
  { intros k. apply fillRun_enough; reflexivity. }
  assert (forall k, fillRun 2 3 0 0 shade2x3 DEFAULT_TOLERANCE_VALUE (3 + k) =
            (mkState (concat [clear; clear; clear; blue; clear; gray]) [],
             snd (fillRun 2 3 0 0 shade2x3 DEFAULT_TOLERANCE_VALUE 3))) as H1.
  { intros k. apply fillRun_enough; reflexivity. }
  split; [reflexivity|].
  split; [apply validInputb_ok; reflexivity|].
  split; [apply validInputb_ok; reflexivity|].
  split; [intros k; unfold floodFill; rewrite H0; reflexivity|].
  split; [intros k; unfold floodFill; rewrite H1; reflexivity|].
  split; intros k.
  - rewrite H0. unfold zeroed. vm_compute. tauto.
  - rewrite H1. unfold zeroed. vm_compute. intros H.
    repeat (destruct H as [H|H]; [discriminate H|]). exact H.
Qed.

(** C7 (corrected). On the 4 x 4 checkerboard with gray at (0, 0), seed
    (0, 0), tolerance 0.05, the fill zeroes the seed pixel alone: it writes
    the four bytes of pixel (0, 0) and returns the buffer with every other
    pixel, gray or blue, unchanged. *)
Theorem C7_scenario_B_seed_only k :
  floodFill 4 4 0 0 checkerboard4x4 DEFAULT_TOLERANCE_VALUE (1 + k) =
    Some (clear ++ drop 4 checkerboard4x4) /\
  writes (snd (fillRun 4 4 0 0 checkerboard4x4 DEFAULT_TOLERANCE_VALUE (1 + k))) =
    [0; 1; 2; 3].
Proof.
  unfold floodFill. rewrite checkerboard_run. split; reflexivity.
Qed.

(** C7, counterexample: the gray pixel (1, 1) keeps its colour. *)
Lemma C7_scenario_B_fails : ~ scenarioB_claim.
Proof.
  intros (fuel & d' & H & Hall).
  destruct fuel as [|k]; [discriminate H|].
  change (S k) with (1 + k)%nat in H. unfold floodFill in H.
  rewrite checkerboard_run in H. simpl in H. injection H as <-.
  specialize (Hall 1 1 ltac:(unfold inGrid; simpl; lia)).
  vm_compute in Hall. discriminate Hall.
Qed.

(** C8. On the 4 x 4 buffer of gray pixels, seed (0, 0), tolerance 0.05,
    the fill returns after four iterations, one per column, and all 16
    pixels are (0, 0, 0, 0). *)
Theorem C8_scenario_A k :
  floodFill 4 4 0 0 uniform4x4 DEFAULT_TOLERANCE_VALUE (4 + k) =
    Some (concat (repeat clear 16)).
Proof.
  apply (floodFill_enough 4 4 0 0 uniform4x4 DEFAULT_TOLERANCE_VALUE 4 k
           (mkState (concat (repeat clear 16)) [])
           (snd (fillRun 4 4 0 0 uniform4x4 DEFAULT_TOLERANCE_VALUE 4)));
    reflexivity.
Qed.

(** C9 (code defect). The claim is that every read of the buffer is within
    it. The diagonal test of line 141 has no guard on the row: at row 0 it
    reads one row above the buffer. On the 2 x 1 buffer gray, blue it reads
    index -4; on the checkerboard of scenario B it reads index -12. *)
Theorem C9_diagonal_read_above_buffer :
  validInput 2 1 0 0 grayBlue DEFAULT_TOLERANCE_VALUE /\
  In (-4) (reads (snd (fillRun 2 1 0 0 grayBlue DEFAULT_TOLERANCE_VALUE 1))) /\
  validInput 4 4 0 0 checkerboard4x4 DEFAULT_TOLERANCE_VALUE /\
  In (-12) (reads (snd (fillRun 4 4 0 0 checkerboard4x4 DEFAULT_TOLERANCE_VALUE 1))).
Proof.
  split; [apply validInputb_ok; reflexivity|].
  split; [vm_compute; tauto|].
  split; [apply validInputb_ok; reflexivity|].
  vm_compute; tauto.
Qed.





(** C10. For every valid input and every pixel of the grid, the pixel is
    either as in the original buffer or (0, 0, 0, 0), after any number of
    iterations of the fill and so in the buffer the fill returns. *)
Theorem C10_pixel_original_or_zero width height x y d tol px py :
  validInput width height x y d tol -> inGrid width height (px, py) ->
  (forall n, let d' := data (fst (fillRun width height x y d tol n)) in
             pixel d' (pos width px py) = pixel d (pos width px py) \/
             pixel d' (pos width px py) = zeroPx) /\
  (forall fuel d', floodFill width height x y d tol fuel = Some d' ->
             pixel d' (pos width px py) = pixel d (pos width px py) \/
             pixel d' (pos width px py) = zeroPx).
Proof.
  intros V Hg. split.
  - intros n. apply run_pixel_original_or_zero; assumption.
  - intros fuel d' H. apply floodFill_Some in H as (-> & _ & _).
    apply run_pixel_original_or_zero; assumption.
Qed.

Lemma C10_pixel_original_or_zero_witness :
  validInput 2 3 0 0 notch2x3 DEFAULT_TOLERANCE_VALUE /\ inGrid 2 3 (1, 2) /\
  (pixel (concat [clear; clear; clear; blue; clear; gray]) (pos 2 1 2) =
     pixel notch2x3 (pos 2 1 2) \/
   pixel (concat [clear; clear; clear; blue; clear; gray]) (pos 2 1 2) = zeroPx).
Proof.
  split; [apply validInputb_ok; reflexivity|].
  split; [unfold inGrid; simpl; lia|].
  apply (C10_pixel_original_or_zero 2 3 0 0 notch2x3 DEFAULT_TOLERANCE_VALUE 1 2
           ltac:(apply validInputb_ok; reflexivity)
           ltac:(unfold inGrid; simpl; lia)) with (fuel := 3%nat).
  reflexivity.
Defined.

(** C6, counterexample: on the 1 x 2 buffer gray over opaque black, the
    first fill zeroes pixel (0, 0) alone; the second takes its bounds from
    the zeroed seed and sets the black pixel (0, 1) to (0, 0, 0, 0). *)
Lemma C6_second_fill_leaves_region :
  validInput 1 2 0 0 grayOverBlack DEFAULT_TOLERANCE_VALUE /\
  floodFill 1 2 0 0 (clear ++ black) DEFAULT_TOLERANCE_VALUE 1 = Some (clear ++ clear) /\
  ~ secondFillInside 1 2 0 0 grayOverBlack DEFAULT_TOLERANCE_VALUE.
Proof.
  split; [apply validInputb_ok; reflexivity|]. split; [reflexivity|].
  intros H.
  specialize (H 1%nat (clear ++ black) 1%nat (0, 1) eq_refl
                ltac:(unfold inGrid; simpl; lia)).
  unfold zeroed in H. vm_compute in H.
  destruct H as [H|[H|[H|[H|[]]]]]; try discriminate H. tauto.
Qed.

(** C6 (corrected). A fill run again, with the same seed and tolerance, on
    the buffer a first fill returned takes its bounds from the seed pixel
    as it now is, all zero. Whatever the number of its iterations, a pixel
    it zeroes is one the first fill zeroed, or one whose R, G and B were
    already 0 in the original buffer. *)
Theorem C6_second_fill_black_only width height x y d tol fuel d1 n px py :
  validInput width height x y d tol ->
  floodFill width height x y d tol fuel = Some d1 ->
  inGrid width height (px, py) ->
  zeroed width (snd (fillRun width height x y d1 tol n)) (px, py) ->
  zeroed width (snd (fillRun width height x y d tol fuel)) (px, py) \/
  (get d (pos width px py) = Some 0 /\ get d (pos width px py + 1) = Some 0 /\
   get d (pos width px py + 2) = Some 0).
Proof.
  intros V H1 Hg Hz2. apply floodFill_Some in H1 as (-> & _ & Hfuel).
  destruct (fillRun width height x y d tol fuel) as [s1 l1] eqn:E1. simpl in *.
  destruct (fillRun_inv _ _ _ _ _ _ _ _ _ V E1) as [I1 _].
  pose proof (fillRun_seed _ _ _ _ _ _ _ _ _ V Hfuel E1) as Hseed.
  destruct V as (Hd & Hb & Hgs & Ht).
  destruct (fi_zero I1 x y Hgs Hseed) as [Hzero _].
  destruct (fillRun width height x y (data s1) tol n) as [s2 l2] eqn:E2. simpl in *.
  unfold fillRun in E2.
  pose proof (frameInv_run width height _ (data s1) n _ [] _ _
                (frameInv_start width height _ (data s1) x y (fi_valid I1) Hgs)
                E2) as I2.
  destruct (fi_zero I2 px py Hg Hz2) as [_ Hm].
  unfold seedBounds in Hm. fold (pos width x y) in Hm.
  apply matches_zero_seed in Hm as (G0 & G1 & G2).
  - destruct (zeroed_dec width l1 (px, py)) as [Hz1|Hz1]; [left; assumption|right].
    pose proof (fi_same I1 px py 0 Hg Hz1 ltac:(lia)) as S0.
    pose proof (fi_same I1 px py 1 Hg Hz1 ltac:(lia)) as S1.
    pose proof (fi_same I1 px py 2 Hg Hz1 ltac:(lia)) as S2.
    rewrite Z.add_0_r in S0. rewrite <- S0, <- S1, <- S2. auto.
  - specialize (Hzero 0 ltac:(lia)). rewrite Z.add_0_r in Hzero. assumption.
  - apply Hzero. lia.
  - apply Hzero. lia.
Qed.

Lemma C6_second_fill_black_only_witness :
  validInput 1 2 0 0 grayOverBlack DEFAULT_TOLERANCE_VALUE /\
  floodFill 1 2 0 0 grayOverBlack DEFAULT_TOLERANCE_VALUE 1 = Some (clear ++ black) /\
  inGrid 1 2 (0, 1) /\
  zeroed 1 (snd (fillRun 1 2 0 0 (clear ++ black) DEFAULT_TOLERANCE_VALUE 1)) (0, 1) /\
  (zeroed 1 (snd (fillRun 1 2 0 0 grayOverBlack DEFAULT_TOLERANCE_VALUE 1)) (0, 1) \/
   (get grayOverBlack (pos 1 0 1) = Some 0 /\ get grayOverBlack (pos 1 0 1 + 1) = Some 0 /\
    get grayOverBlack (pos 1 0 1 + 2) = Some 0)).
Proof.
  assert (zeroed 1 (snd (fillRun 1 2 0 0 (clear ++ black) DEFAULT_TOLERANCE_VALUE 1)) (0, 1))
    as Hz by (unfold zeroed; vm_compute; tauto).
  split; [apply validInputb_ok; reflexivity|]. split; [reflexivity|].
  split; [unfold inGrid; simpl; lia|]. split; [exact Hz|].
  apply (C6_second_fill_black_only 1 2 0 0 grayOverBlack DEFAULT_TOLERANCE_VALUE 1
           (clear ++ black) 1 0 1
           ltac:(apply validInputb_ok; reflexivity) eq_refl
           ltac:(unfold inGrid; simpl; lia) Hz).
Defined.

(** * Further properties of the fill *)

(** ** The bounds and the tolerance predicate (lines 84-103) *)

Lemma matches_within B d i :
  matches B d i =
  within (get d i) (rMin B) (rMax B) &&
  within (get d (i + 1)) (gMin B) (gMax B) &&
  within (get d (i + 2)) (bMin B) (bMax B).
Proof. reflexivity. Qed.

Lemma within_Some (v : Z) lo hi :
  within (Some v) (Some lo) (Some hi) = true <->
  (lo <= inject_Z v)%Q /\ (inject_Z v <= hi)%Q.
Proof.
  unfold within, js_ge, js_le. simpl.
  rewrite andb_true_iff, !Qle_bool_iff. reflexivity.
Qed.

Lemma within_None lo hi : within None lo hi = false.
Proof. unfold within, js_ge, js_le. simpl. destruct lo; reflexivity. Qed.

Lemma inject_Z_le (a b : Z) : (inject_Z a <= inject_Z b)%Q <-> a <= b.
Proof. rewrite <- Zle_Qle. reflexivity. Qed.

Lemma inject_Z_nonneg (a : Z) : 0 <= a -> (0 <= inject_Z a)%Q.
Proof. intros H. change 0%Q with (inject_Z 0). apply (proj2 (inject_Z_le _ _)). assumption. Qed.

(** With tolerance 0 a channel passes exactly when it equals the seed's. *)
Lemma within_exact (u : option Z) (v : Z) :
  within u (Some (inject_Z v * (1 - 0))%Q) (Some (inject_Z v * (1 + 0))%Q) = true <->
  u = Some v.
Proof.
  destruct u as [u|]; [|rewrite within_None; split; discriminate].
  rewrite within_Some. split.
  - intros [H1 H2].
    assert (inject_Z v <= inject_Z u)%Q as H1' by nra.
    assert (inject_Z u <= inject_Z v)%Q as H2' by nra.
    apply (proj1 (inject_Z_le _ _)) in H1'. apply (proj1 (inject_Z_le _ _)) in H2'.
    f_equal. lia.
  - intros H. injection H as ->. split; nra.
Qed.

(** A wider tolerance admits every channel value a narrower one admits. *)
Lemma within_mono (u : option Z) (v : Z) (tol1 tol2 : Q) :
  0 <= v -> (tol1 <= tol2)%Q ->
  within u (Some (inject_Z v * (1 - tol1))%Q) (Some (inject_Z v * (1 + tol1))%Q) = true ->
  within u (Some (inject_Z v * (1 - tol2))%Q) (Some (inject_Z v * (1 + tol2))%Q) = true.
Proof.
  intros Hv Ht. pose proof (inject_Z_nonneg v Hv) as Hq.
  destruct u as [u|]; [|rewrite within_None; discriminate].
  rewrite !within_Some. intros [H1 H2]. split; nra.
Qed.

(** With tolerance 1 or more the lower bound is 0 or less. *)
Lemma within_zero (v : Z) (tol : Q) :
  0 <= v -> (1 <= tol)%Q ->
  within (Some 0) (Some (inject_Z v * (1 - tol))%Q) (Some (inject_Z v * (1 + tol))%Q) = true.
Proof.
  intros Hv Ht. pose proof (inject_Z_nonneg v Hv) as Hq.
  apply within_Some. change (inject_Z 0) with 0%Q. split; nra.
Qed.

(** With tolerance 254 or more and a seed channel of 1 or more the bounds
    enclose every byte. *)
Lemma within_saturated (u v : Z) (tol : Q) :
  1 <= v -> 0 <= u <= 255 -> (254 <= tol)%Q ->
  within (Some u) (Some (inject_Z v * (1 - tol))%Q) (Some (inject_Z v * (1 + tol))%Q) = true.
Proof.
  intros Hv Hu Ht.
  assert (1 <= inject_Z v)%Q as Hq by (change 1%Q with (inject_Z 1); apply (proj2 (inject_Z_le _ _)); lia).
  assert (0 <= inject_Z u)%Q as Hu0 by (apply inject_Z_nonneg; lia).
  assert (inject_Z u <= 255)%Q as Hu1
    by (change 255%Q with (inject_Z 255); apply (proj2 (inject_Z_le _ _)); lia).
  apply within_Some. split; nra.
Qed.

(** With a negative tolerance and a seed channel above 0 the lower bound
    lies above the upper one. *)
Lemma within_inverted (u : option Z) (v : Z) (tol : Q) :
  0 < v -> (tol < 0)%Q ->
  within u (Some (inject_Z v * (1 - tol))%Q) (Some (inject_Z v * (1 + tol))%Q) = false.
Proof.
  intros Hv Ht.
  assert (0 < inject_Z v)%Q as Hq
    by (change 0%Q with (inject_Z 0); rewrite <- Zlt_Qlt; assumption).
  destruct (within u _ _) eqn:E; [|reflexivity].
  destruct u as [u|]; [|rewrite within_None in E; discriminate].
  apply within_Some in E as [H1 H2]. nra.
Qed.

Lemma matches_computeBounds d i tol j r g b :
  get d i = Some r -> get d (i + 1) = Some g -> get d (i + 2) = Some b ->
  matches (computeBounds d i tol) d j =
  within (get d j) (Some (inject_Z r * (1 - tol))%Q) (Some (inject_Z r * (1 + tol))%Q) &&
  within (get d (j + 1)) (Some (inject_Z g * (1 - tol))%Q) (Some (inject_Z g * (1 + tol))%Q) &&
  within (get d (j + 2)) (Some (inject_Z b * (1 - tol))%Q) (Some (inject_Z b * (1 + tol))%Q).
Proof.
  intros Hr Hg Hb. rewrite matches_within. unfold computeBounds.
  cbn [rMax gMax bMax rMin gMin bMin]. rewrite Hr, Hg, Hb. reflexivity.
Qed.

Lemma get_Forall (P : Z -> Prop) (d : list Z) i v :
  Forall P d -> get d i = Some v -> P v.
Proof.
  intros Hd H. unfold get in H. destruct (i <? 0); [discriminate|].
  eapply (proj1 (Forall_lookup _ _) Hd). exact H.
Qed.

(** Bounds taken from a position outside the buffer are [NaN]: nothing
    lies within them. *)
Lemma matches_undefined_seed d i tol d' j :
  get d i = None \/ get d (i + 1) = None \/ get d (i + 2) = None ->
  matches (computeBounds d i tol) d' j = false.
Proof.
  intros H. rewrite matches_within. unfold computeBounds, within.
  cbn [rMax gMax bMax rMin gMin bMin].
  destruct H as [H|[H|H]]; rewrite H; cbn [of_byte js_mul]; unfold js_ge, js_le.
  - destruct (of_byte (get d' j)); reflexivity.
  - rewrite andb_comm, andb_assoc.
    destruct (of_byte (get d' (j + 1))); simpl; rewrite ?andb_false_r; reflexivity.
  - destruct (of_byte (get d' (j + 2))); simpl; rewrite ?andb_false_r; reflexivity.
Qed.

(** X1. With tolerance 0 the predicate of line 102 is exact colour
    equality: a pixel matches exactly when its R, G and B are those of the
    seed. *)
Theorem tolerance_zero_is_exact d i j r g b :
  get d i = Some r -> get d (i + 1) = Some g -> get d (i + 2) = Some b ->
  (matches (computeBounds d i 0) d j = true <->
   get d j = Some r /\ get d (j + 1) = Some g /\ get d (j + 2) = Some b).
Proof.
  intros Hr Hg Hb. rewrite (matches_computeBounds d i 0 j r g b Hr Hg Hb).
  rewrite !andb_true_iff, !within_exact. tauto.
Qed.

Lemma tolerance_zero_is_exact_witness :
  matches (computeBounds shade2x3 0 0) shade2x3 4 = true <->
  get shade2x3 4 = Some 200 /\ get shade2x3 5 = Some 200 /\ get shade2x3 6 = Some 200.
Proof.
  apply (tolerance_zero_is_exact shade2x3 0 4 200 200 200); reflexivity.
Defined.

(** X2. The predicate grows with the tolerance: on a buffer of bytes, a
    pixel within the bounds taken from a seed with one tolerance is within
    those taken from the same seed with any larger tolerance. *)
Theorem tolerance_monotone d i tol1 tol2 d' j :
  Forall (fun v => 0 <= v <= 255) d -> (tol1 <= tol2)%Q ->
  matches (computeBounds d i tol1) d' j = true ->
  matches (computeBounds d i tol2) d' j = true.
Proof.
  intros Hd Ht H.
  destruct (get d i) as [r|] eqn:Hr;
    [|rewrite matches_undefined_seed in H by auto; discriminate].
  destruct (get d (i + 1)) as [g|] eqn:Hg;
    [|rewrite matches_undefined_seed in H by auto; discriminate].
  destruct (get d (i + 2)) as [b|] eqn:Hb;
    [|rewrite matches_undefined_seed in H by auto; discriminate].
  pose proof (get_Forall _ _ _ _ Hd Hr) as Pr.
  pose proof (get_Forall _ _ _ _ Hd Hg) as Pg.
  pose proof (get_Forall _ _ _ _ Hd Hb) as Pb. simpl in Pr, Pg, Pb.
  assert (forall tol, matches (computeBounds d i tol) d' j =
            within (get d' j) (Some (inject_Z r * (1 - tol))%Q)
              (Some (inject_Z r * (1 + tol))%Q) &&
            within (get d' (j + 1)) (Some (inject_Z g * (1 - tol))%Q)
              (Some (inject_Z g * (1 + tol))%Q) &&
            within (get d' (j + 2)) (Some (inject_Z b * (1 - tol))%Q)
              (Some (inject_Z b * (1 + tol))%Q)) as E.
  { intros tol. rewrite matches_within. unfold computeBounds.
    cbn [rMax gMax bMax rMin gMin bMin]. rewrite Hr, Hg, Hb. reflexivity. }
  rewrite E in *. rewrite !andb_true_iff in *. destruct H as [[H1 H2] H3].
  repeat split; eapply within_mono; try eassumption; lia.
Qed.

Lemma tolerance_monotone_witness :
  Forall (fun v => 0 <= v <= 255) shade2x3 /\
  (0 <= DEFAULT_TOLERANCE_VALUE)%Q /\
  matches (computeBounds shade2x3 0 0) shade2x3 8 = true /\
  matches (computeBounds shade2x3 0 DEFAULT_TOLERANCE_VALUE) shade2x3 8 = true.
Proof.
  assert (validInput 2 3 0 0 shade2x3 0) as V by (apply validInputb_ok; reflexivity).
  destruct V as (_ & Hb & _).
  split; [exact Hb|]. split; [apply Qle_bool_iff; reflexivity|]. split; [reflexivity|].
  apply (tolerance_monotone shade2x3 0 0 DEFAULT_TOLERANCE_VALUE shade2x3 8 Hb);
    [apply Qle_bool_iff; reflexivity|reflexivity].
Defined.

(** X3. With a tolerance of 1 or more, a pixel whose R, G and B are 0
    lies within the bounds of every seed: the pixels the fill has zeroed
    keep matching. *)
Theorem tolerance_one_admits_zero d i tol d' j :
  Forall (fun v => 0 <= v <= 255) d ->
  0 <= i -> i + 2 < Z.of_nat (length d) -> (1 <= tol)%Q ->
  get d' j = Some 0 -> get d' (j + 1) = Some 0 -> get d' (j + 2) = Some 0 ->
  matches (computeBounds d i tol) d' j = true.
Proof.
  intros Hd Hi0 Hi2 Ht Z0 Z1 Z2.
  destruct (get_byte d i Hd) as (r & Hr & Pr); [lia|].
  destruct (get_byte d (i + 1) Hd) as (g & Hg & Pg); [lia|].
  destruct (get_byte d (i + 2) Hd) as (b & Hb & Pb); [lia|].
  rewrite matches_within. unfold computeBounds.
  cbn [rMax gMax bMax rMin gMin bMin]. rewrite Hr, Hg, Hb, Z0, Z1, Z2.
  cbn [of_byte js_mul]. rewrite !within_zero by (assumption || lia). reflexivity.
Qed.

Lemma tolerance_one_admits_zero_witness :
  matches (computeBounds uniform4x4 0 1) (clear ++ gray) 0 = true.
Proof.
  assert (validInput 4 4 0 0 uniform4x4 1) as V by (apply validInputb_ok; reflexivity).
  destruct V as (_ & Hb & _).
  apply (tolerance_one_admits_zero uniform4x4 0 1 (clear ++ gray) 0 Hb);
    try reflexivity; try (apply Qle_bool_iff; reflexivity); simpl; lia.
Defined.

(** X4. With a tolerance of 254 or more and a seed whose R, G and B are
    all 1 or more, every pixel of a buffer of bytes lies within the
    bounds. *)
Theorem tolerance_saturates d i tol d' j r g b :
  get d i = Some r -> get d (i + 1) = Some g -> get d (i + 2) = Some b ->
  1 <= r -> 1 <= g -> 1 <= b -> (254 <= tol)%Q ->
  Forall (fun v => 0 <= v <= 255) d' ->
  0 <= j -> j + 2 < Z.of_nat (length d') ->
  matches (computeBounds d i tol) d' j = true.
Proof.
  intros Hr Hg Hb Pr Pg Pb Ht Hd' Hj0 Hj2.
  destruct (get_byte d' j Hd') as (u0 & U0 & Q0); [lia|].
  destruct (get_byte d' (j + 1) Hd') as (u1 & U1 & Q1); [lia|].
  destruct (get_byte d' (j + 2) Hd') as (u2 & U2 & Q2); [lia|].
  rewrite matches_within. unfold computeBounds.
  cbn [rMax gMax bMax rMin gMin bMin]. rewrite Hr, Hg, Hb, U0, U1, U2.
  cbn [of_byte js_mul]. rewrite !within_saturated by assumption. reflexivity.
Qed.

Lemma tolerance_saturates_witness :
  matches (computeBounds (light ++ blue) 0 254) (light ++ blue) 4 = true.
Proof.
  assert (validInput 2 1 0 0 (light ++ blue) 254) as V by (apply validInputb_ok; reflexivity).
  destruct V as (_ & Hb & _).
  apply (tolerance_saturates (light ++ blue) 0 254 (light ++ blue) 4 205 205 205
           eq_refl eq_refl eq_refl ltac:(lia) ltac:(lia) ltac:(lia)
           ltac:(apply Qle_bool_iff; reflexivity) Hb ltac:(lia) ltac:(simpl; lia)).
Defined.

(** ** A fill whose predicate admits nothing *)

Section NoMatch.

Variables width height : Z.
Variable B : Bounds.
Variable d : list Z.
Hypothesis nomatch : forall i, matches B d i = false.

Lemma walkUp_nomatch n y p :
  exists e, walkUp width B n d y p = (y - 1, p, e) /\ writes e = [] /\ pushes e = [].
Proof.
  destruct n as [|n]; simpl; [exists []; auto|].
  destruct (0 <=? y); [|exists []; auto].
  unfold matchTolerance. rewrite nomatch. eexists. split; [reflexivity|]. auto.
Qed.

Lemma walkDown_nomatch n x s :
  s_data s = d ->
  exists e, walkDown width height B n x s = (bump s, e) /\ writes e = [] /\ pushes e = [].
Proof.
  intros Hs. destruct n as [|n]; simpl; [exists []; auto|].
  destruct (s_y s <? height - 1); [|exists []; auto].
  unfold matchTolerance. rewrite Hs, nomatch. eexists. split; [reflexivity|]. auto.
Qed.

Lemma iter_nomatch q rest :
  exists e, iter width height B (mkState d (q :: rest)) = (mkState d rest, e) /\
            writes e = [] /\ pushes e = [].
Proof.
  destruct q as [x y]. unfold iter. simpl.
  destruct (walkUp_nomatch (Z.to_nat (y + 1)) y ((y * width + x) * 4))
    as (e1 & -> & W1 & P1).
  destruct (walkDown_nomatch (Z.to_nat (height - 1 - (y - 1 + 1))) x
              (mkScan (y - 1 + 1) ((y * width + x) * 4 + width * 4) d rest false false)
              eq_refl) as (e2 & -> & W2 & P2).
  exists (e1 ++ e2). simpl.
  rewrite writes_app, pushes_app, W1, W2, P1, P2. auto.
Qed.

End NoMatch.

Lemma fill_nomatch width height x y d tol :
  (forall i, matches (seedBounds width x y d tol) d i = false) ->
  floodFill width height x y d tol 1 = Some d /\
  writes (snd (fillRun width height x y d tol 1)) = [].
Proof.
  intros H. unfold floodFill, fillRun, start. simpl.
  destruct (iter_nomatch width height _ d H (x, y) []) as (e & -> & W & _).
  simpl. rewrite app_nil_r. auto.
Qed.

(** X5. A seed whose bytes lie outside the buffer makes the fill a no-op:
    the seed colour is [undefined], the bounds are [NaN], nothing matches,
    and the fill returns the buffer as it was after one iteration, without
    a write. *)
Theorem seed_outside_buffer_no_op width height x y d tol :
  ~ (0 <= pos width x y /\ pos width x y + 2 < Z.of_nat (length d)) ->
  floodFill width height x y d tol 1 = Some d /\
  writes (snd (fillRun width height x y d tol 1)) = [].
Proof.
  intros Hout. apply fill_nomatch. intros i.
  unfold seedBounds. fold (pos width x y). apply matches_undefined_seed.
  destruct (get d (pos width x y)) as [r|] eqn:Hr; [|auto].
  destruct (get d (pos width x y + 2)) as [b|] eqn:Hb; [|auto].
  apply get_Some_range in Hr, Hb. lia.
Qed.

Lemma seed_outside_buffer_no_op_witness :
  floodFill 4 4 0 4 uniform4x4 DEFAULT_TOLERANCE_VALUE 1 = Some uniform4x4 /\
  writes (snd (fillRun 4 4 0 4 uniform4x4 DEFAULT_TOLERANCE_VALUE 1)) = [].
Proof.
  apply (seed_outside_buffer_no_op 4 4 0 4 uniform4x4 DEFAULT_TOLERANCE_VALUE).
  unfold pos. simpl. lia.
Defined.



(** ** What the loops push and write, whatever the input *)

Section Events.

Variables width height : Z.
Variable B : Bounds.

Lemma walkUp_quiet n d : forall y p y1 p1 e,
  walkUp width B n d y p = (y1, p1, e) -> writes e = [] /\ pushes e = [].
Proof.
  induction n as [|n IH]; intros y p y1 p1 e H; simpl in H.
  - injection H as <- <- <-. auto.
  - destruct (0 <=? y); [|injection H as <- <- <-; auto].
    unfold matchTolerance in H. destruct (matches B d p).
    + destruct (walkUp width B n d (y - 1) (p - width * 4)) as [[y' p'] e'] eqn:Hrec.
      injection H as <- <- <-. apply IH in Hrec as [W P].
      split; [exact W|exact P].
    + injection H as <- <- <-. auto.
Qed.

Lemma checkLeft_events x y p d st rl st' rl' e :
  checkLeft B x y p d st rl = (st', rl', e) ->
  st' = rev (pushes e) ++ st /\ (length (pushes e) <= 1)%nat /\ writes e = [].
Proof.
  unfold checkLeft, matchTolerance.
  destruct (0 <? x); [|intros H; injection H as <- <- <-; simpl; auto].
  destruct (matches B d (p - 4)); destruct rl; simpl;
    intros H; injection H as <- <- <-; simpl; auto.
Qed.

Lemma checkRight_events x y p d st rl rr st' rl' rr' e :
  checkRight width B x y p d st rl rr = (st', rl', rr', e) ->
  st' = rev (pushes e) ++ st /\ (length (pushes e) <= 1)%nat /\ writes e = [].
Proof.
  unfold checkRight, matchTolerance.
  destruct (x <? width - 1); [|intros H; injection H as <- <- <- <-; simpl; auto].
  destruct (matches B d (p + 4)).
  - destruct rr; simpl; intros H; injection H as <- <- <- <-; simpl; auto.
  - destruct (matches B d (p + 4 - width * 4)); destruct rl; destruct rr; simpl;
      intros H; injection H as <- <- <- <-; simpl; auto.
Qed.

Lemma scanBody_events x y s s1 e :
  scanBody width B x y s = (s1, e) ->
  s_stack s1 = rev (pushes e) ++ s_stack s /\ (length (pushes e) <= 2)%nat /\
  writes e = [s_pos s; s_pos s + 1; s_pos s + 2; s_pos s + 3] /\
  s_data s1 = fst (zeroPixel (s_data s) (s_pos s)).
Proof.
  unfold scanBody.
  set (d1 := fst (zeroPixel (s_data s) (s_pos s))).
  change (zeroPixel (s_data s) (s_pos s)) with
    (d1, [EvWrite (s_pos s); EvWrite (s_pos s + 1); EvWrite (s_pos s + 2);
          EvWrite (s_pos s + 3)]).
  cbv beta iota.
  destruct (checkLeft B x y (s_pos s) d1 (s_stack s) (s_reachLeft s))
    as [[st1 rl1] e2] eqn:HL.
  destruct (checkRight width B x y (s_pos s) d1 st1 rl1 (s_reachRight s))
    as [[[st2 rl2] rr2] e3] eqn:HR.
  apply checkLeft_events in HL as (-> & LL & WL).
  apply checkRight_events in HR as (-> & LR & WR).
  intros H; injection H as <- <-. simpl.
  rewrite !pushes_app, !writes_app, WL, WR, rev_app_distr, length_app. simpl.
  repeat split; [apply app_assoc|lia].
Qed.

Lemma walkDown_events n x : forall s s' e,
  walkDown width height B n x s = (s', e) ->
  s_stack s' = rev (pushes e) ++ s_stack s /\
  (length (pushes e) * 2 <= length (writes e))%nat /\
  length (s_data s') = length (s_data s).
Proof.
  induction n as [|n IH]; intros s s' e H; simpl in H.
  - injection H as <- <-. simpl. auto.
  - destruct (s_y s <? height - 1); [|injection H as <- <-; simpl; auto].
    unfold matchTolerance in H. destruct (matches B (s_data s) (s_pos s)).
    + destruct (scanBody width B x (s_y s + 1) s) as [s1 e1] eqn:Hbody.
      destruct (walkDown width height B n x s1) as [s2 e2] eqn:Hrec.
      injection H as <- <-.
      apply scanBody_events in Hbody as (St1 & L1 & W1 & D1).
      apply IH in Hrec as (St2 & L2 & D2).
      rewrite St2, St1, D2, D1, length_zeroPixel.
      cbn [pushes writes flat_map app]. fold (pushes (e1 ++ e2)). fold (writes (e1 ++ e2)).
      rewrite pushes_app, writes_app, rev_app_distr, !length_app, W1. simpl.
      repeat split; [apply app_assoc|lia].
    + injection H as <- <-. simpl. auto.
Qed.

Lemma iter_events q rest d s' e :
  iter width height B (mkState d (q :: rest)) = (s', e) ->
  pixelStack s' = rev (pushes e) ++ rest /\
  (length (pushes e) * 2 <= length (writes e))%nat /\
  length (data s') = length d.
Proof.
  destruct q as [x y]. unfold iter. simpl.
  destruct (walkUp width B (Z.to_nat (y + 1)) d y ((y * width + x) * 4))
    as [[y1 p1] e1] eqn:Hup.
  destruct (walkDown width height B (Z.to_nat (height - 1 - (y1 + 1))) x
              (mkScan (y1 + 1) (p1 + width * 4) d rest false false))
    as [sc e2] eqn:Hdown.
  intros H; injection H as <- <-. simpl.
  apply walkUp_quiet in Hup as [W1 P1].
  apply walkDown_events in Hdown as (St & L & D). simpl in St, D.
  rewrite pushes_app, writes_app, W1, P1. simpl. auto.
Qed.

Lemma run_length n : forall s s' e,
  run width height B n s = (s', e) -> length (data s') = length (data s).
Proof.
  induction n as [|n IH]; intros s s' e H; simpl in H.
  - injection H as <- <-. reflexivity.
  - destruct (iter width height B s) as [s1 e1] eqn:H1.
    destruct (run width height B n s1) as [s2 e2] eqn:H2.
    injection H as <- <-. rewrite (IH _ _ _ H2).
    destruct s as [d [|q rest]].
    + unfold iter in H1. simpl in H1. injection H1 as <- <-. reflexivity.
    + apply iter_events in H1 as (_ & _ & D). exact D.
Qed.

(** While the stack is not empty, every iteration has popped one entry:
    the stack holds the entries pushed and not yet popped. *)
Lemma run_stack_length n : forall s s' e,
  run width height B n s = (s', e) -> pixelStack s' <> [] ->
  (length (pixelStack s') + n = length (pixelStack s) + length (pushes e))%nat.
Proof.
  induction n as [|n IH]; intros s s' e H Hne; simpl in H.
  - injection H as <- <-. simpl. lia.
  - destruct (iter width height B s) as [s1 e1] eqn:H1.
    destruct (run width height B n s1) as [s2 e2] eqn:H2.
    injection H as <- <-.
    pose proof (IH _ _ _ H2 Hne) as E.
    destruct s as [d [|q rest]].
    + unfold iter in H1. simpl in H1. injection H1 as <- <-.
      rewrite run_done in H2 by reflexivity. injection H2 as <- <-.
      simpl in Hne. contradiction.
    + apply iter_events in H1 as (St & _ & _).
      rewrite St, length_app, length_rev in E.
      rewrite pushes_app, length_app. simpl. lia.
Qed.

Lemma run_pushes_writes n : forall s s' e,
  run width height B n s = (s', e) ->
  (length (pushes e) * 2 <= length (writes e))%nat.
Proof.
  induction n as [|n IH]; intros s s' e H; simpl in H.
  - injection H as <- <-. simpl. lia.
  - destruct (iter width height B s) as [s1 e1] eqn:H1.
    destruct (run width height B n s1) as [s2 e2] eqn:H2.
    injection H as <- <-. apply IH in H2.
    rewrite pushes_app, writes_app, !length_app.
    destruct s as [d [|q rest]].
    + unfold iter in H1. simpl in H1. injection H1 as <- <-. simpl. lia.
    + apply iter_events in H1 as (_ & L & _). lia.
Qed.

End Events.

(** X7. The fill never resizes the buffer, whatever its input: after any
    number of iterations the buffer has the length it started with. *)
Theorem fill_keeps_length width height x y d tol n :
  length (data (fst (fillRun width height x y d tol n))) = length d.
Proof.
  unfold fillRun.
  destruct (run width height (seedBounds width x y d tol) n (start x y d)) as [s l] eqn:H.
  apply run_length in H. exact H.
Qed.

(** ** Where the fill reads and writes *)

Section Access.

Variables width height : Z.
Variable B : Bounds.

Local Abbreviation pos := (pos width).
Local Abbreviation inGrid := (inGrid width height).
Local Abbreviation readOK := (readOK width height).
Local Abbreviation zeroed := (zeroed width).

Lemma reads_read i l : reads (EvRead i :: l) = i :: reads l.
Proof. reflexivity. Qed.

Lemma reads_matchTolerance d p :
  reads (snd (matchTolerance B d p)) = [p; p + 1; p + 2].
Proof. reflexivity. Qed.

Lemma readOK_cell x y :
  0 <= x < width -> -1 <= y < height -> (y = -1 -> 0 < x) ->
  Forall readOK [pos x y; pos x y + 1; pos x y + 2].
Proof.
  intros Hx Hy Hx0.
  assert (forall k, 0 <= k < 3 -> readOK (pos x y + k)) as H.
  { intros k Hk. destruct (Z.eq_dec y (-1)) as [->|Hne].
    - right. exists x, k. repeat split; lia.
    - left. pose proof (pos_range width height x y ltac:(unfold inGrid; simpl; lia)). lia. }
  constructor; [rewrite <- (Z.add_0_r (pos x y)); apply H; lia|].
  constructor; [apply H; lia|]. constructor; [apply H; lia|constructor].
Qed.

Lemma walkUp_reads d x n : forall y y1 p1 e,
  0 <= x < width -> n = Z.to_nat (y + 1) -> -1 <= y < height ->
  walkUp width B n d y (pos x y) = (y1, p1, e) -> Forall readOK (reads e).
Proof.
  induction n as [|n IH]; intros y y1 p1 e Hx Hn Hy H; simpl in H.
  - injection H as <- <- <-. constructor.
  - destruct (0 <=? y) eqn:E0; [apply Z.leb_le in E0|injection H as <- <- <-; constructor].
    unfold matchTolerance in H. destruct (matches B d (pos x y)).
    + rewrite pos_up in H.
      destruct (walkUp width B n d (y - 1) (pos x (y - 1))) as [[y' p'] e'] eqn:Hrec.
      injection H as <- <- <-. apply IH in Hrec; [|assumption|lia|lia].
      change (Forall readOK ([pos x y; pos x y + 1; pos x y + 2] ++ reads e')).
      apply Forall_app. split; [|assumption].
      apply readOK_cell; lia.
    + injection H as <- <- <-. apply readOK_cell; lia.
Qed.

Lemma checkLeft_reads x y d st rl st' rl' e :
  0 <= x < width -> 0 <= y < height ->
  checkLeft B x y (pos x y) d st rl = (st', rl', e) -> Forall readOK (reads e).
Proof.
  intros Hx Hy. unfold checkLeft, matchTolerance. rewrite pos_left.
  destruct (0 <? x) eqn:Ex; [apply Z.ltb_lt in Ex|intros H; injection H as <- <- <-; constructor].
  assert (Forall readOK [pos (x - 1) y; pos (x - 1) y + 1; pos (x - 1) y + 2]) as R
    by (apply readOK_cell; lia).
  destruct (matches B d (pos (x - 1) y)); destruct rl;
    intros H; injection H as <- <- <-; rewrite ?reads_app;
    rewrite ?Forall_app; simpl; auto.
Qed.

Lemma checkRight_reads x y d st rl rr st' rl' rr' e :
  0 <= x < width -> 0 <= y < height ->
  checkRight width B x y (pos x y) d st rl rr = (st', rl', rr', e) ->
  Forall readOK (reads e).
Proof.
  intros Hx Hy. unfold checkRight, matchTolerance. rewrite pos_diag, pos_right.
  destruct (x <? width - 1) eqn:Ex;
    [apply Z.ltb_lt in Ex|intros H; injection H as <- <- <- <-; constructor].
  assert (Forall readOK [pos (x + 1) y; pos (x + 1) y + 1; pos (x + 1) y + 2]) as R
    by (apply readOK_cell; lia).
  assert (Forall readOK [pos (x + 1) (y - 1); pos (x + 1) (y - 1) + 1;
                         pos (x + 1) (y - 1) + 2]) as R'
    by (apply readOK_cell; lia).
  assert (Forall readOK ([pos (x + 1) y; pos (x + 1) y + 1; pos (x + 1) y + 2] ++
                         [pos (x + 1) (y - 1); pos (x + 1) (y - 1) + 1;
                          pos (x + 1) (y - 1) + 2])) as R2
    by (apply Forall_app; split; assumption).
  destruct (matches B d (pos (x + 1) y)).
  - destruct rr; intros H; injection H as <- <- <- <-; exact R.
  - destruct (matches B d (pos (x + 1) (y - 1))); destruct rl; destruct rr;
      intros H; injection H as <- <- <- <-; exact R2.
Qed.

Lemma scanBody_reads x t s s1 e :
  0 <= x < width -> 0 <= t < height -> s_pos s = pos x t ->
  scanBody width B x t s = (s1, e) -> Forall readOK (reads e).
Proof.
  intros Hx Ht Hp. unfold scanBody. rewrite Hp.
  set (d1 := fst (zeroPixel (s_data s) (pos x t))).
  change (zeroPixel (s_data s) (pos x t)) with
    (d1, [EvWrite (pos x t); EvWrite (pos x t + 1); EvWrite (pos x t + 2);
          EvWrite (pos x t + 3)]).
  cbv beta iota.
  destruct (checkLeft B x t (pos x t) d1 (s_stack s) (s_reachLeft s))
    as [[st1 rl1] e2] eqn:HL.
  destruct (checkRight width B x t (pos x t) d1 st1 rl1 (s_reachRight s))
    as [[[st2 rl2] rr2] e3] eqn:HR.
  apply checkLeft_reads in HL; [|assumption..].
  apply checkRight_reads in HR; [|assumption..].
  intros H; injection H as <- <-.
  change (Forall readOK (reads (e2 ++ e3))).
  rewrite reads_app. apply Forall_app. split; assumption.
Qed.

Lemma s_pos_scanBody x y s :
  s_pos (fst (scanBody width B x y s)) = s_pos s + width * 4.
Proof.
  unfold scanBody. destruct (zeroPixel (s_data s) (s_pos s)) as [d1 e1].
  destruct (checkLeft B x y (s_pos s) d1 (s_stack s) (s_reachLeft s)) as [[st1 rl1] e2].
  destruct (checkRight width B x y (s_pos s) d1 st1 rl1 (s_reachRight s))
    as [[[st2 rl2] rr2] e3].
  reflexivity.
Qed.

Lemma NoDup_four (p : Z) : NoDup [p; p + 1; p + 2; p + 3].
Proof.
  rewrite !NoDup_cons, !not_elem_of_cons.
  repeat split; try lia; try apply not_elem_of_nil. apply NoDup_nil_2.
Qed.

(** The writes of a pass over column [x]: four bytes for each row it
    zeroes, no byte twice. *)
Lemma walkDown_access x n : forall s s' e,
  0 <= x < width -> 0 <= s_y s + 1 <= height ->
  n = Z.to_nat (height - 1 - s_y s) -> s_pos s = pos x (s_y s + 1) ->
  walkDown width height B n x s = (s', e) ->
  Forall readOK (reads e) /\
  Forall (fun i => exists r k, s_y s + 1 <= r < height /\ 0 <= k < 4 /\
                     i = pos x r + k /\ In (pos x r) (writes e)) (writes e) /\
  NoDup (writes e).
Proof.
  induction n as [|n IH]; intros s s' e Hx Hy Hn Hp H; simpl in H.
  - injection H as <- <-. simpl. repeat split; constructor.
  - destruct (s_y s <? height - 1) eqn:Ey;
      [apply Z.ltb_lt in Ey|injection H as <- <-; simpl; repeat split; constructor].
    set (t := s_y s + 1) in *.
    assert (Forall readOK [pos x t; pos x t + 1; pos x t + 2]) as Rt
      by (apply readOK_cell; lia).
    unfold matchTolerance in H. rewrite Hp in H.
    destruct (matches B (s_data s) (pos x t)).
    + destruct (scanBody width B x t s) as [s1 e1] eqn:Hbody.
      destruct (walkDown width height B n x s1) as [s2 e2] eqn:Hrec.
      injection H as <- <-.
      pose proof (s_y_scanBody width B x t s) as Hy1.
      pose proof (s_pos_scanBody x t s) as Hp1.
      rewrite Hbody in Hy1, Hp1. simpl in Hy1, Hp1. rewrite Hp, pos_down in Hp1.
      pose proof (scanBody_reads x t s s1 e1 Hx ltac:(lia) Hp Hbody) as R1.
      apply scanBody_events in Hbody as (_ & _ & W1 & _). rewrite Hp in W1.
      apply IH in Hrec as (R2 & W2 & N2); rewrite ?Hy1; try assumption; try lia.
      rewrite Hy1 in W2.
      cbn [app]. rewrite !reads_read, !writes_read, reads_app, writes_app, W1.
      split.
      { apply (Forall_app _ [pos x t; pos x t + 1; pos x t + 2]).
        split; [assumption|apply Forall_app; split; assumption]. }
      split.
      * apply Forall_app. split.
        -- apply Forall_forall. intros i Hi. rewrite !elem_of_cons, elem_of_nil in Hi.
           exists t, (i - pos x t). repeat split; try lia. left. reflexivity.
        -- eapply Forall_impl; [exact W2|]. intros i (r & k & Hr & Hk & -> & Hin).
           exists r, k. repeat split; try lia. apply in_or_app. right. assumption.
      * apply NoDup_app. split; [apply NoDup_four|]. split; [|assumption].
        intros i Hi1 Hi2.
        destruct (proj1 (Forall_forall _ _) W2 i Hi2) as (r & k & Hr & Hk & -> & _).
        rewrite !elem_of_cons, elem_of_nil in Hi1.
        assert (pos x r + k = pos x t + (pos x r + k - pos x t)) as E by lia.
        apply pos_inj with (height := height) in E;
          [lia|unfold inGrid; simpl; lia|unfold inGrid; simpl; lia|lia|lia].
    + injection H as <- <-. simpl. split; [assumption|]. split; constructor.
Qed.

Lemma iter_access x y0 rest d s' e :
  inGrid (x, y0) ->
  iter width height B (mkState d ((x, y0) :: rest)) = (s', e) ->
  Forall readOK (reads e) /\
  Forall (fun i => exists r k, inGrid (x, r) /\ 0 <= k < 4 /\
                     i = pos x r + k /\ In (pos x r) (writes e)) (writes e) /\
  NoDup (writes e).
Proof.
  intros [Hx Hy]. simpl in Hx, Hy. unfold iter. simpl. fold (pos x y0).
  destruct (walkUp width B (Z.to_nat (y0 + 1)) d y0 (pos x y0)) as [[y1 p1] e1] eqn:Hup.
  pose proof (walkUp_reads d x (Z.to_nat (y0 + 1)) y0 _ _ _ Hx eq_refl ltac:(lia) Hup) as R1.
  pose proof (walkUp_quiet width B _ _ _ _ _ _ _ Hup) as [W1 _].
  apply walkUp_spec in Hup as (r & Hr & -> & -> & _); [|reflexivity|lia].
  rewrite pos_down. replace (r - 1 + 1) with r by lia.
  destruct (walkDown width height B (Z.to_nat (height - 1 - r)) x
              (mkScan r (pos x (r + 1)) d rest false false)) as [sc e2] eqn:Hdown.
  apply walkDown_access in Hdown as (R2 & W2 & N2);
    simpl; try assumption; try lia; try reflexivity.
  simpl in W2. intros H; injection H as <- <-.
  rewrite reads_app, writes_app, W1. simpl.
  split; [apply Forall_app; split; assumption|]. split; [|assumption].
  eapply Forall_impl; [exact W2|]. intros i (r' & k & Hr' & Hk & -> & Hin).
  exists r', k. repeat split; simpl; try lia. assumption.
Qed.

End Access.

(** ** The log of a fill on a valid input *)

Lemma Forall_of_rev {A} (P : A -> Prop) (l : list A) : Forall P (rev l) -> Forall P l.
Proof.
  rewrite !Forall_forall. intros H x Hx. apply H.
  apply list_elem_of_In, (proj1 (in_rev _ _)), list_elem_of_In. exact Hx.
Qed.

Lemma matches_zero_pixel B d i :
  get d i = Some 0 -> get d (i + 1) = Some 0 -> get d (i + 2) = Some 0 ->
  matches B d i = zeroMatches B.
Proof.
  intros H0 H1 H2. unfold zeroMatches. rewrite !matches_within, H0, H1, H2. reflexivity.
Qed.

Section Log.

Variables width height : Z.
Variable B : Bounds.
Variable orig : list Z.

Local Abbreviation pos := (pos width).
Local Abbreviation inGrid := (inGrid width height).
Local Abbreviation zeroed := (zeroed width).
Local Abbreviation frameInv := (frameInv width height B orig).
Local Abbreviation logOK := (logOK width height).

Lemma logOK_nil : logOK [].
Proof. repeat split; constructor. Qed.

Lemma logOK_iter s l s' e :
  frameInv s l -> logOK l -> iter width height B s = (s', e) -> logOK (l ++ e).
Proof.
  intros I (Lr & Lp & Lw) H. destruct s as [d [|[x y0] rest]].
  - unfold iter in H. simpl in H. injection H as <- <-. rewrite app_nil_r.
    repeat split; assumption.
  - pose proof (fi_valid I) as Hd. pose proof (fi_stack I) as Hst.
    simpl in Hd, Hst. apply Forall_cons in Hst as [Hg Hrest].
    pose proof (iter_access width height B x y0 rest d s' e Hg H) as (Ra & Wa & _).
    pose proof (iter_events width height B (x, y0) rest d s' e H) as (St & _ & _).
    apply iter_spec in H as (t & b & _ & _ & _ & _ & _ & _ & _ & new & Hnew & Fnew);
      try assumption.
    rewrite St in Hnew. apply app_inv_tail in Hnew. subst new.
    unfold logOK.
    rewrite reads_app, pushes_app, writes_app.
    split; [apply Forall_app; split; assumption|]. split.
    + apply Forall_app. split; [assumption|]. apply Forall_of_rev.
      eapply Forall_impl; [exact Fnew|]. intros q Hq. apply Hq.
    + apply Forall_app. split.
      * eapply Forall_impl; [exact Lw|]. intros i (x' & y' & k & Hg' & Hk & -> & Hz).
        exists x', y', k. split; [exact Hg'|]. split; [lia|]. split; [reflexivity|].
        apply zeroed_app. left. assumption.
      * eapply Forall_impl; [exact Wa|]. intros i (r & k & Hg' & Hk & -> & Hin).
        exists x, r, k. split; [exact Hg'|]. split; [lia|]. split; [reflexivity|].
        apply zeroed_app. right. exact Hin.
Qed.

Lemma logOK_run n : forall s l s' e,
  frameInv s l -> logOK l -> run width height B n s = (s', e) -> logOK (l ++ e).
Proof.
  induction n as [|n IH]; intros s l s' e I L H; simpl in H.
  - injection H as <- <-. rewrite app_nil_r. assumption.
  - destruct (iter width height B s) as [s1 e1] eqn:H1.
    destruct (run width height B n s1) as [s2 e2] eqn:H2.
    injection H as <- <-. rewrite app_assoc.
    eapply IH; [| |exact H2].
    + eapply frameInv_iter; eassumption.
    + eapply logOK_iter; eassumption.
Qed.

(** When a zeroed pixel no longer matches, no byte is written twice. *)
Lemma once_iter s l s' e :
  zeroMatches B = false -> frameInv s l -> logOK l -> NoDup (writes l) ->
  iter width height B s = (s', e) -> NoDup (writes (l ++ e)).
Proof.
  intros Hzm I (_ & _ & Lw) N H. destruct s as [d [|[x y0] rest]].
  - unfold iter in H. simpl in H. injection H as <- <-. rewrite app_nil_r. assumption.
  - pose proof (fi_valid I) as Hd. pose proof (fi_stack I) as Hst.
    simpl in Hd, Hst. apply Forall_cons in Hst as [Hg Hrest].
    pose proof (iter_access width height B x y0 rest d s' e Hg H) as (_ & Wa & Na).
    apply iter_spec in H as (t & b & _ & _ & _ & _ & _ & Hrun & (_ & _ & _ & Hw) & _);
      try assumption.
    rewrite writes_app. apply NoDup_app. split; [assumption|]. split; [|assumption].
    intros i Hi1 Hi2.
    destruct (proj1 (Forall_forall _ _) Lw i Hi1) as (x' & y' & k' & Hg' & Hk' & E' & Hz).
    destruct (proj1 (Forall_forall _ _) Wa i Hi2) as (r & k & Hgr & Hk & E & Hin).
    rewrite E' in E. apply pos_inj with (height := height) in E as (-> & -> & _);
      try assumption.
    apply (Hw x r Hgr) in Hin. destruct Hin as [_ Hr].
    specialize (Hrun r Hr).
    destruct (fi_zero I x r Hgr Hz) as [Hzero _]. simpl in Hzero.
    rewrite (matches_zero_pixel B d (pos x r)) in Hrun.
    + congruence.
    + specialize (Hzero 0 ltac:(lia)). rewrite Z.add_0_r in Hzero. assumption.
    + apply Hzero. lia.
    + apply Hzero. lia.
Qed.

Lemma once_run n : forall s l s' e,
  zeroMatches B = false -> frameInv s l -> logOK l -> NoDup (writes l) ->
  run width height B n s = (s', e) -> NoDup (writes (l ++ e)).
Proof.
  induction n as [|n IH]; intros s l s' e Hzm I L N H; simpl in H.
  - injection H as <- <-. rewrite app_nil_r. assumption.
  - destruct (iter width height B s) as [s1 e1] eqn:H1.
    destruct (run width height B n s1) as [s2 e2] eqn:H2.
    injection H as <- <-. rewrite app_assoc.
    eapply IH; [assumption| | | |exact H2].
    + eapply frameInv_iter; eassumption.
    + eapply logOK_iter; eassumption.
    + eapply once_iter; eassumption.
Qed.

End Log.

Lemma fillRun_logOK width height x y d tol n s l :
  validInput width height x y d tol ->
  fillRun width height x y d tol n = (s, l) -> logOK width height l.
Proof.
  intros (Hd & Hb & Hg & Ht) H. unfold fillRun in H.
  apply (logOK_run width height _ d n _ [] _ _
           (frameInv_start width height _ d x y Hd Hg) (logOK_nil width height) H).
Qed.

(** X8. On a valid input the fill never reads beyond the end of the
    buffer, and before its start only in the row just above the grid, in
    a column other than the first: the diagonal test of line 141 at
    row 0. *)
Theorem fill_reads_bounded width height x y d tol n :
  validInput width height x y d tol ->
  Forall (readOK width height) (reads (snd (fillRun width height x y d tol n))).
Proof.
  intros V. destruct (fillRun width height x y d tol n) as [s l] eqn:H.
  apply (fillRun_logOK _ _ _ _ _ _ _ _ _ V H).
Qed.

Lemma fill_reads_bounded_witness :
  Forall (readOK 4 4) (reads (snd (fillRun 4 4 0 0 checkerboard4x4 DEFAULT_TOLERANCE_VALUE 1))).
Proof.
  apply (fill_reads_bounded 4 4 0 0 checkerboard4x4 DEFAULT_TOLERANCE_VALUE 1).
  apply validInputb_ok. reflexivity.
Defined.

(** X9. On a valid input every write of the fill lands inside the
    buffer. *)
Theorem fill_writes_in_buffer width height x y d tol n :
  validInput width height x y d tol ->
  Forall (fun i => 0 <= i < Z.of_nat (length d))
         (writes (snd (fillRun width height x y d tol n))).
Proof.
  intros V. destruct (fillRun width height x y d tol n) as [s l] eqn:H.
  destruct (fillRun_logOK _ _ _ _ _ _ _ _ _ V H) as (_ & _ & Lw). simpl.
  destruct V as (Hd & _). unfold validBuffer in Hd. rewrite Hd.
  eapply Forall_impl; [exact Lw|]. intros i (px & py & k & Hg & Hk & -> & _).
  pose proof (pos_range width height px py Hg). lia.
Qed.

Lemma fill_writes_in_buffer_witness :
  Forall (fun i => 0 <= i < Z.of_nat (length uniform4x4))
         (writes (snd (fillRun 4 4 0 0 uniform4x4 DEFAULT_TOLERANCE_VALUE 4))).
Proof.
  apply (fill_writes_in_buffer 4 4 0 0 uniform4x4 DEFAULT_TOLERANCE_VALUE 4).
  apply validInputb_ok. reflexivity.
Defined.

(** X10. On a valid input every coordinate pair the fill pushes, and so
    every pair it later pops, is a pixel of the grid. *)
Theorem fill_pushes_in_grid width height x y d tol n :
  validInput width height x y d tol ->
  Forall (inGrid width height) (pushes (snd (fillRun width height x y d tol n))) /\
  Forall (inGrid width height) (pixelStack (fst (fillRun width height x y d tol n))).
Proof.
  intros V. destruct (fillRun width height x y d tol n) as [s l] eqn:H.
  destruct (fillRun_logOK _ _ _ _ _ _ _ _ _ V H) as (_ & Lp & _).
  destruct (fillRun_inv _ _ _ _ _ _ _ _ _ V H) as [I _].
  split; [exact Lp|exact (fi_stack I)].
Qed.

Lemma fill_pushes_in_grid_witness :
  Forall (inGrid 2 3) (pushes (snd (fillRun 2 3 0 0 notch2x3 DEFAULT_TOLERANCE_VALUE 3))) /\
  Forall (inGrid 2 3) (pixelStack (fst (fillRun 2 3 0 0 notch2x3 DEFAULT_TOLERANCE_VALUE 3))).
Proof.
  apply (fill_pushes_in_grid 2 3 0 0 notch2x3 DEFAULT_TOLERANCE_VALUE 3).
  apply validInputb_ok. reflexivity.
Defined.

(** ** Termination when a zeroed pixel stops matching *)

Lemma NoDup_bounded_length (l : list Z) (N : Z) :
  NoDup l -> Forall (fun i => 0 <= i < N) l -> (length l <= Z.to_nat N)%nat.
Proof.
  intros Hn Hb. rewrite <- (length_seqZ 0 N). apply submseteq_length.
  apply NoDup_submseteq; [assumption|].
  intros i Hi. apply elem_of_seqZ. apply (proj1 (Forall_forall _ _) Hb i Hi).
Qed.

(** A seed channel above 0 and a tolerance below 1 keep the lower bound
    above 0. *)
Lemma within_zero_colored (v : Z) (tol : Q) :
  0 < v -> (tol < 1)%Q ->
  within (Some 0) (Some (inject_Z v * (1 - tol))%Q) (Some (inject_Z v * (1 + tol))%Q) = false.
Proof.
  intros Hv Ht.
  assert (0 < inject_Z v)%Q as Hq
    by (change 0%Q with (inject_Z 0); rewrite <- Zlt_Qlt; assumption).
  destruct (within (Some 0) _ _) eqn:E; [|reflexivity].
  apply within_Some in E as [H1 H2]. change (inject_Z 0) with 0%Q in *. nra.
Qed.

Lemma zeroMatches_colored width x y d tol :
  coloredSeed width x y d -> (tol < 1)%Q ->
  zeroMatches (seedBounds width x y d tol) = false.
Proof.
  intros (r & g & b & Hr & Hg & Hb & Hpos) Ht.
  unfold zeroMatches, seedBounds. fold (pos width x y).
  rewrite matches_within. unfold computeBounds.
  cbn [rMax gMax bMax rMin gMin bMin]. rewrite Hr, Hg, Hb. cbn [of_byte js_mul].
  change (get [0; 0; 0] 0) with (Some 0). change (get [0; 0; 0] (0 + 1)) with (Some 0).
  change (get [0; 0; 0] (0 + 2)) with (Some 0).
  destruct Hpos as [H|[H|H]].
  - rewrite (within_zero_colored r tol H Ht). reflexivity.
  - rewrite (within_zero_colored g tol H Ht). rewrite andb_false_r. reflexivity.
  - rewrite (within_zero_colored b tol H Ht). apply andb_false_r.
Qed.

Lemma fillRun_once width height x y d tol n s l :
  validInput width height x y d tol ->
  zeroMatches (seedBounds width x y d tol) = false ->
  fillRun width height x y d tol n = (s, l) ->
  NoDup (writes l) /\ (length (pushes l) <= Z.to_nat (2 * width * height))%nat.
Proof.
  intros V Hzm H.
  pose proof (fillRun_logOK _ _ _ _ _ _ _ _ _ V H) as L.
  assert (NoDup (writes l)) as N.
  { destruct V as (Hd & Hb & Hg & Ht). unfold fillRun in H.
    apply (once_run width height _ d n _ [] _ _ Hzm
             (frameInv_start width height _ d x y Hd Hg) (logOK_nil width height)
             NoDup_nil_2 H). }
  split; [assumption|].
  assert (length (writes l) <= Z.to_nat (width * height * 4))%nat as Hw.
  { apply NoDup_bounded_length; [assumption|].
    destruct L as (_ & _ & Lw). eapply Forall_impl; [exact Lw|].
    intros i (px & py & k & Hg & Hk & -> & _).
    pose proof (pos_range width height px py Hg). lia. }
  unfold fillRun in H. apply run_pushes_writes in H. lia.
Qed.

Lemma fill_stack_empties width height x y d tol :
  validInput width height x y d tol ->
  zeroMatches (seedBounds width x y d tol) = false ->
  pixelStack (fst (fillRun width height x y d tol (S (Z.to_nat (2 * width * height))))) = [].
Proof.
  intros V Hzm.
  destruct (fillRun width height x y d tol (S (Z.to_nat (2 * width * height))))
    as [s l] eqn:H.
  destruct (fillRun_once _ _ _ _ _ _ _ _ _ V Hzm H) as [_ Hp]. simpl.
  destruct (pixelStack s) as [|q st] eqn:Hs; [reflexivity|exfalso].
  unfold fillRun in H. apply run_stack_length in H; [|rewrite Hs; discriminate].
  rewrite Hs in H. simpl in H. lia.
Qed.

(** X11. On a valid input whose seed is not black, with a tolerance below
    1, the fill returns: the stack is empty after at most
    [2 * width * height + 1] iterations of the outer loop. *)
Theorem colored_seed_fill_returns width height x y d tol :
  validInput width height x y d tol -> coloredSeed width x y d -> (tol < 1)%Q ->
  exists d', floodFill width height x y d tol (S (Z.to_nat (2 * width * height))) = Some d'.
Proof.
  intros V Hc Ht. unfold floodFill.
  rewrite (fill_stack_empties _ _ _ _ _ _ V (zeroMatches_colored _ _ _ _ _ Hc Ht)).
  eexists. reflexivity.
Qed.

Lemma colored_seed_fill_returns_witness :
  exists d', floodFill 2 3 0 0 notch2x3 DEFAULT_TOLERANCE_VALUE
               (S (Z.to_nat (2 * 2 * 3))) = Some d'.
Proof.
  apply (colored_seed_fill_returns 2 3 0 0 notch2x3 DEFAULT_TOLERANCE_VALUE).
  - apply validInputb_ok. reflexivity.
  - exists 200, 200, 200. repeat split; try reflexivity. left. lia.
  - reflexivity.
Defined.

(** X12. On a valid input whose seed is not black, with a tolerance below
    1, the fill writes no byte twice, and pushes at most
    [2 * width * height] coordinate pairs, however many iterations it
    runs. *)
Theorem colored_seed_bounded_work width height x y d tol n :
  validInput width height x y d tol -> coloredSeed width x y d -> (tol < 1)%Q ->
  NoDup (writes (snd (fillRun width height x y d tol n))) /\
  (length (pushes (snd (fillRun width height x y d tol n))) <=
   Z.to_nat (2 * width * height))%nat.
Proof.
  intros V Hc Ht. destruct (fillRun width height x y d tol n) as [s l] eqn:H.
  apply (fillRun_once _ _ _ _ _ _ _ _ _ V (zeroMatches_colored _ _ _ _ _ Hc Ht) H).
Qed.

Lemma colored_seed_bounded_work_witness :
  NoDup (writes (snd (fillRun 4 4 0 0 uniform4x4 DEFAULT_TOLERANCE_VALUE 4))) /\
  (length (pushes (snd (fillRun 4 4 0 0 uniform4x4 DEFAULT_TOLERANCE_VALUE 4))) <=
   Z.to_nat (2 * 4 * 4))%nat.
Proof.
  apply (colored_seed_bounded_work 4 4 0 0 uniform4x4 DEFAULT_TOLERANCE_VALUE 4).
  - apply validInputb_ok. reflexivity.
  - exists 200, 200, 200. repeat split; try reflexivity. left. lia.
  - reflexivity.
Defined.

(** ** What the returned buffer holds *)

(** X13. On a valid input the buffer is, after any number of iterations,
    the original one with the pixels the fill has written to set to
    (0, 0, 0, 0): a written pixel is all zero, any other pixel is as it
    was. *)
Theorem fill_result_by_writes width height x y d tol n px py :
  validInput width height x y d tol -> inGrid width height (px, py) ->
  let s := fst (fillRun width height x y d tol n) in
  let l := snd (fillRun width height x y d tol n) in
  (zeroed width l (px, py) -> pixel (data s) (pos width px py) = zeroPx) /\
  (~ zeroed width l (px, py) ->
   pixel (data s) (pos width px py) = pixel d (pos width px py)).
Proof.
  intros V Hg. destruct (fillRun width height x y d tol n) as [s l] eqn:H. simpl.
  split; intros Hz.
  - eapply zeroed_pixel; eassumption.
  - eapply unzeroed_pixel; eassumption.
Qed.

Lemma fill_result_by_writes_witness :
  (zeroed 2 (snd (fillRun 2 3 0 0 notch2x3 DEFAULT_TOLERANCE_VALUE 3)) (1, 0) ->
   pixel (data (fst (fillRun 2 3 0 0 notch2x3 DEFAULT_TOLERANCE_VALUE 3))) (pos 2 1 0) =
   zeroPx) /\
  (~ zeroed 2 (snd (fillRun 2 3 0 0 notch2x3 DEFAULT_TOLERANCE_VALUE 3)) (1, 0) ->
   pixel (data (fst (fillRun 2 3 0 0 notch2x3 DEFAULT_TOLERANCE_VALUE 3))) (pos 2 1 0) =
   pixel notch2x3 (pos 2 1 0)).
Proof.
  apply (fill_result_by_writes 2 3 0 0 notch2x3 DEFAULT_TOLERANCE_VALUE 3 1 0).
  - apply validInputb_ok. reflexivity.
  - unfold inGrid. simpl. lia.
Defined.

(** ** The column of the seed *)

Section SeedColumn.

Variables width height : Z.
Variable B : Bounds.

Local Abbreviation pos := (pos width).
Local Abbreviation inGrid := (inGrid width height).
Local Abbreviation validBuffer := (validBuffer width height).
Local Abbreviation zeroed := (zeroed width).

(** An iteration that pops a matching pixel zeroes the whole vertical run
    of matching pixels through it. *)
Lemma iter_column x y0 rest d s' e :
  inGrid (x, y0) -> validBuffer d -> matches B d (pos x y0) = true ->
  iter width height B (mkState d ((x, y0) :: rest)) = (s', e) ->
  forall r, inGrid (x, r) ->
    (forall r', Z.min y0 r <= r' <= Z.max y0 r -> matches B d (pos x r') = true) ->
    zeroed e (x, r).
Proof.
  intros [Hx Hy] Hd Hm. simpl in Hx, Hy. unfold iter. simpl. fold (pos x y0).
  destruct (walkUp width B (Z.to_nat (y0 + 1)) d y0 (pos x y0)) as [[y1 p1] e1] eqn:Hup.
  apply walkUp_spec in Hup as (r0 & Hr0 & -> & -> & Hall & Hstop & Hw1);
    [|reflexivity|lia].
  rewrite pos_down. replace (r0 - 1 + 1) with r0 by lia.
  destruct (walkDown width height B (Z.to_nat (height - 1 - r0)) x
              (mkScan r0 (pos x (r0 + 1)) d rest false false)) as [sc e2] eqn:Hdown.
  apply walkDown_spec in Hdown as (b & Hb & Hrun & Hmax & (_ & _ & _ & Hw) & _);
    simpl; try assumption; try lia; try reflexivity.
  simpl in *. intros H; injection H as <- <-.
  intros r [_ Hr] Hbetween. simpl in Hr.
  unfold zeroed. simpl. rewrite writes_app, Hw1. simpl.
  apply Hw; [unfold inGrid; simpl; lia|]. split; [reflexivity|].
  assert (r0 < y0) as Hlt.
  { destruct (Z.eq_dec r0 y0) as [->|]; [|lia]. rewrite Hstop in Hm by lia. discriminate. }
  assert (y0 < b) as Hyb.
  { destruct (Z_lt_le_dec y0 b) as [|Hle]; [assumption|].
    rewrite Hall in Hmax by lia. specialize (Hmax ltac:(lia)). discriminate. }
  split.
  - destruct (Z_lt_le_dec r0 r) as [|Hle]; [lia|].
    rewrite Hbetween in Hstop by lia. specialize (Hstop ltac:(lia)). discriminate.
  - destruct (Z_lt_le_dec r b) as [|Hle]; [assumption|].
    rewrite Hbetween in Hmax by lia. specialize (Hmax ltac:(lia)). discriminate.
Qed.

End SeedColumn.



(** ** A buffer one pixel wide *)

Lemma scanBody_single B y s :
  pushes (snd (scanBody 1 B 0 y s)) = [].
Proof. reflexivity. Qed.

Lemma walkDown_single height B n : forall s,
  pushes (snd (walkDown 1 height B n 0 s)) = [].
Proof.
  induction n as [|n IH]; intros s; cbn [walkDown]; [reflexivity|].
  destruct (s_y s <? height - 1); [|reflexivity].
  unfold matchTolerance. destruct (matches B (s_data s) (s_pos s)); [|reflexivity].
  destruct (scanBody 1 B 0 (s_y s + 1) s) as [s1 e1] eqn:Hbody.
  pose proof (scanBody_single B (s_y s + 1) s) as P1. rewrite Hbody in P1. simpl in P1.
  specialize (IH s1). destruct (walkDown 1 height B n 0 s1) as [s2 e2]. simpl in IH.
  change (pushes (e1 ++ e2) = []). rewrite pushes_app, P1, IH. reflexivity.
Qed.

(** X15. On a valid buffer one pixel wide the fill pushes nothing and
    returns after a single iteration of its outer loop, whatever the
    seed colour and the tolerance. *)
Theorem single_column_one_pass height x y d tol :
  validInput 1 height x y d tol ->
  pushes (snd (fillRun 1 height x y d tol 1)) = [] /\
  exists d', floodFill 1 height x y d tol 1 = Some d'.
Proof.
  intros (_ & _ & [Hx _] & _). simpl in Hx. assert (x = 0) as -> by lia.
  unfold floodFill, fillRun.
  destruct (run 1 height (seedBounds 1 0 y d tol) 1 (start 0 y d)) as [s l] eqn:H.
  simpl in H.
  destruct (iter 1 height (seedBounds 1 0 y d tol) (start 0 y d)) as [s1 e1] eqn:H1.
  injection H as <- <-. rewrite app_nil_r. simpl.
  assert (pushes e1 = []) as P.
  { unfold iter, start in H1. simpl in H1.
    destruct (walkUp 1 (seedBounds 1 0 y d tol) (Z.to_nat (y + 1)) d y ((y * 1 + 0) * 4))
      as [[y1 p1] e0] eqn:Hup.
    apply walkUp_quiet in Hup as [_ P0].
    pose proof (walkDown_single height (seedBounds 1 0 y d tol)
                  (Z.to_nat (height - 1 - (y1 + 1)))
                  (mkScan (y1 + 1) (p1 + 1 * 4) d [] false false)) as P2.
    destruct (walkDown 1 height (seedBounds 1 0 y d tol)
                (Z.to_nat (height - 1 - (y1 + 1))) 0
                (mkScan (y1 + 1) (p1 + 1 * 4) d [] false false)) as [sc e2].
    injection H1 as <- <-. simpl in P2. rewrite pushes_app, P0, P2. reflexivity. }
  split; [assumption|].
  unfold start in H1. apply iter_events in H1 as (St & _ & _).
  rewrite St, P. simpl. eexists. reflexivity.
Qed.

Lemma single_column_one_pass_witness :
  pushes (snd (fillRun 1 2 0 0 (black ++ black) DEFAULT_TOLERANCE_VALUE 1)) = [] /\
  exists d', floodFill 1 2 0 0 (black ++ black) DEFAULT_TOLERANCE_VALUE 1 = Some d'.
Proof.
  apply (single_column_one_pass 2 0 0 (black ++ black) DEFAULT_TOLERANCE_VALUE).
  apply validInputb_ok. reflexivity.
Defined.

(** ** The alpha channel plays no part *)

Local Ltac mod4 := Z.div_mod_to_equations; lia.

Lemma set_outside (d : list Z) i v :
  ~ (0 <= i < Z.of_nat (length d)) -> set d i v = d.
Proof.
  intros H. unfold set. destruct (i <? 0) eqn:E; [reflexivity|].
  apply Z.ltb_ge in E. apply list_insert_ge. lia.
Qed.

Lemma rgbEq_refl d : rgbEq d d.
Proof. split; auto. Qed.

Lemma rgbEq_set d d' i v : rgbEq d d' -> rgbEq (set d i v) (set d' i v).
Proof.
  intros [Hl Hg]. split; [rewrite !length_set; assumption|].
  intros j Hj. destruct (Z.eq_dec i j) as [->|Hne].
  - destruct (Z_le_dec 0 j); [destruct (Z_lt_dec j (Z.of_nat (length d)))|].
    + rewrite !get_set_eq by lia. reflexivity.
    + rewrite !set_outside by lia. auto.
    + rewrite !set_outside by lia. auto.
  - rewrite !get_set_ne by assumption. auto.
Qed.

Lemma rgbEq_zeroPixel d d' p :
  rgbEq d d' -> rgbEq (fst (zeroPixel d p)) (fst (zeroPixel d' p)).
Proof. intros H. unfold zeroPixel. simpl. repeat apply rgbEq_set. assumption. Qed.

Lemma matches_rgbEq B d d' p :
  rgbEq d d' -> p mod 4 = 0 -> matches B d p = matches B d' p.
Proof.
  intros [_ Hg] Hp. apply matches_ext. intros k Hk. apply Hg. mod4.
Qed.

Lemma computeBounds_rgbEq d d' p tol :
  rgbEq d d' -> p mod 4 = 0 -> computeBounds d p tol = computeBounds d' p tol.
Proof.
  intros [_ Hg] Hp. unfold computeBounds.
  rewrite (Hg p), (Hg (p + 1)), (Hg (p + 2)) by mod4. reflexivity.
Qed.

Section Alpha.

Variables width height : Z.
Variable B : Bounds.

Lemma walkUp_rgbEq d d' n : forall y p,
  rgbEq d d' -> p mod 4 = 0 ->
  walkUp width B n d y p = walkUp width B n d' y p.
Proof.
  induction n as [|n IH]; intros y p Hd Hp; simpl; [reflexivity|].
  destruct (0 <=? y); [|reflexivity].
  unfold matchTolerance. rewrite (matches_rgbEq B d d' p Hd Hp).
  destruct (matches B d' p); [|reflexivity].
  rewrite (IH (y - 1) (p - width * 4) Hd) by mod4. reflexivity.
Qed.

Lemma checkLeft_rgbEq x y p d d' st rl :
  rgbEq d d' -> p mod 4 = 0 ->
  checkLeft B x y p d st rl = checkLeft B x y p d' st rl.
Proof.
  intros Hd Hp. unfold checkLeft, matchTolerance.
  rewrite (matches_rgbEq B d d' (p - 4) Hd) by mod4. reflexivity.
Qed.

Lemma checkRight_rgbEq x y p d d' st rl rr :
  rgbEq d d' -> p mod 4 = 0 ->
  checkRight width B x y p d st rl rr = checkRight width B x y p d' st rl rr.
Proof.
  intros Hd Hp. unfold checkRight, matchTolerance.
  rewrite (matches_rgbEq B d d' (p + 4) Hd) by mod4.
  rewrite (matches_rgbEq B d d' (p + 4 - width * 4) Hd) by mod4. reflexivity.
Qed.

Lemma scanBody_rgbEq x y s s' :
  scanEq s s' -> s_pos s mod 4 = 0 ->
  snd (scanBody width B x y s) = snd (scanBody width B x y s') /\
  scanEq (fst (scanBody width B x y s)) (fst (scanBody width B x y s')).
Proof.
  intros (Hy & Hp & Hd & Hst & Hl & Hr) Hm. unfold scanBody.
  rewrite <- Hp, <- Hst, <- Hl, <- Hr.
  pose proof (rgbEq_zeroPixel _ _ (s_pos s) Hd) as Hd1.
  set (d1 := fst (zeroPixel (s_data s) (s_pos s))) in *.
  set (d1' := fst (zeroPixel (s_data s') (s_pos s))) in *.
  change (zeroPixel (s_data s) (s_pos s)) with
    (d1, [EvWrite (s_pos s); EvWrite (s_pos s + 1); EvWrite (s_pos s + 2);
          EvWrite (s_pos s + 3)]).
  change (zeroPixel (s_data s') (s_pos s)) with
    (d1', [EvWrite (s_pos s); EvWrite (s_pos s + 1); EvWrite (s_pos s + 2);
           EvWrite (s_pos s + 3)]).
  cbv beta iota.
  rewrite <- (checkLeft_rgbEq x y (s_pos s) d1 d1' _ _ Hd1 Hm).
  destruct (checkLeft B x y (s_pos s) d1 (s_stack s) (s_reachLeft s)) as [[st1 rl1] e2].
  rewrite <- (checkRight_rgbEq x y (s_pos s) d1 d1' _ _ _ Hd1 Hm).
  destruct (checkRight width B x y (s_pos s) d1 st1 rl1 (s_reachRight s))
    as [[[st2 rl2] rr2] e3].
  simpl. split; [reflexivity|]. unfold scanEq. simpl.
  split; [reflexivity|]. split; [reflexivity|]. split; [exact Hd1|]. repeat split.
Qed.

Lemma walkDown_rgbEq x n : forall s s',
  scanEq s s' -> s_pos s mod 4 = 0 ->
  snd (walkDown width height B n x s) = snd (walkDown width height B n x s') /\
  scanEq (fst (walkDown width height B n x s)) (fst (walkDown width height B n x s')).
Proof.
  induction n as [|n IH]; intros s s' E Hm; cbn [walkDown].
  - destruct E as (Hy & Hp & Hd & Hst & Hl & Hr). simpl.
    split; [reflexivity|]. unfold scanEq. simpl.
    split; [lia|]. split; [assumption|]. split; [assumption|]. repeat split; assumption.
  - pose proof E as (Hy & Hp & Hd & Hst & Hl & Hr).
    rewrite <- Hy, <- Hp. unfold matchTolerance.
    rewrite <- (matches_rgbEq B _ _ (s_pos s) Hd Hm).
    assert (scanEq (bump s) (bump s')) as Eb.
    { unfold scanEq, bump. simpl.
      split; [lia|]. split; [assumption|]. split; [assumption|].
      repeat split; assumption. }
    destruct (s_y s <? height - 1); [|split; [reflexivity|exact Eb]].
    destruct (matches B (s_data s) (s_pos s)); [|split; [reflexivity|exact Eb]].
    destruct (scanBody_rgbEq x (s_y s + 1) s s' E Hm) as [He1 Es1].
    pose proof (s_pos_scanBody width B x (s_y s + 1) s) as Hp1.
    destruct (scanBody width B x (s_y s + 1) s) as [s1 e1].
    destruct (scanBody width B x (s_y s + 1) s') as [s1' e1'].
    simpl in He1, Es1, Hp1. subst e1'.
    destruct (IH s1 s1' Es1 ltac:(rewrite Hp1; mod4)) as [He2 Es2].
    destruct (walkDown width height B n x s1) as [s2 e2].
    destruct (walkDown width height B n x s1') as [s2' e2'].
    simpl in He2, Es2. subst e2'. simpl. split; [reflexivity|assumption].
Qed.

Lemma walkUp_pos_mod d n : forall y p y1 p1 e,
  p mod 4 = 0 -> walkUp width B n d y p = (y1, p1, e) -> p1 mod 4 = 0.
Proof.
  induction n as [|n IH]; intros y p y1 p1 e Hm H; simpl in H.
  - injection H as <- <- <-. assumption.
  - destruct (0 <=? y); [|injection H as <- <- <-; assumption].
    unfold matchTolerance in H. destruct (matches B d p).
    + destruct (walkUp width B n d (y - 1) (p - width * 4)) as [[y' p'] e'] eqn:Hrec.
      injection H as <- <- <-. eapply IH; [|exact Hrec]. mod4.
    + injection H as <- <- <-. assumption.
Qed.

Lemma iter_rgbEq s s' :
  stateEq s s' ->
  snd (iter width height B s) = snd (iter width height B s') /\
  stateEq (fst (iter width height B s)) (fst (iter width height B s')).
Proof.
  intros [Hd Hst]. unfold iter. rewrite <- Hst.
  destruct (pixelStack s) as [|[x y] rest] eqn:Hs;
    [split; [reflexivity|split; [exact Hd|simpl; congruence]]|].
  assert (((y * width + x) * 4) mod 4 = 0) as Hm by (apply Z.mod_mul; lia).
  rewrite <- (walkUp_rgbEq _ _ _ y _ Hd Hm).
  destruct (walkUp width B (Z.to_nat (y + 1)) (data s) y ((y * width + x) * 4))
    as [[y1 p1] e1] eqn:Hup.
  pose proof (walkUp_pos_mod _ _ _ _ _ _ _ Hm Hup) as Hm1.
  destruct (walkDown_rgbEq x (Z.to_nat (height - 1 - (y1 + 1)))
              (mkScan (y1 + 1) (p1 + width * 4) (data s) rest false false)
              (mkScan (y1 + 1) (p1 + width * 4) (data s') rest false false))
    as [He Es].
  { unfold scanEq. simpl.
    split; [reflexivity|]. split; [reflexivity|]. split; [exact Hd|]. repeat split. }
  { simpl. mod4. }
  destruct (walkDown width height B (Z.to_nat (height - 1 - (y1 + 1))) x
              (mkScan (y1 + 1) (p1 + width * 4) (data s) rest false false)) as [sc e2].
  destruct (walkDown width height B (Z.to_nat (height - 1 - (y1 + 1))) x
              (mkScan (y1 + 1) (p1 + width * 4) (data s') rest false false)) as [sc' e2'].
  simpl in He, Es. subst e2'. simpl. split; [reflexivity|].
  destruct Es as (_ & _ & Hd2 & Hst2 & _). split; assumption.
Qed.

Lemma run_rgbEq n : forall s s',
  stateEq s s' ->
  snd (run width height B n s) = snd (run width height B n s') /\
  stateEq (fst (run width height B n s)) (fst (run width height B n s')).
Proof.
  induction n as [|n IH]; intros s s' E; simpl; [split; [reflexivity|assumption]|].
  destruct (iter_rgbEq s s' E) as [He1 Es1].
  destruct (iter width height B s) as [s1 e1].
  destruct (iter width height B s') as [s1' e1'].
  simpl in He1, Es1. subst e1'.
  destruct (IH s1 s1' Es1) as [He2 Es2].
  destruct (run width height B n s1) as [s2 e2].
  destruct (run width height B n s1') as [s2' e2'].
  simpl in He2, Es2. subst e2'. simpl. split; [reflexivity|assumption].
Qed.

End Alpha.

(** X16. The alpha bytes of the input never influence the fill: on two
    buffers that differ at most in alpha bytes (bytes 3, 7, 11, ...), the
    fill performs the same reads, writes and pushes, holds the same stack
    after any number of iterations, and leaves buffers that again differ
    at most in alpha bytes. This holds for every input, valid or not. *)
Theorem alpha_plays_no_part width height x y d d' tol n :
  rgbEq d d' ->
  snd (fillRun width height x y d tol n) = snd (fillRun width height x y d' tol n) /\
  pixelStack (fst (fillRun width height x y d tol n)) =
    pixelStack (fst (fillRun width height x y d' tol n)) /\
  rgbEq (data (fst (fillRun width height x y d tol n)))
        (data (fst (fillRun width height x y d' tol n))).
Proof.
  intros E. unfold fillRun, seedBounds.
  rewrite <- (computeBounds_rgbEq d d' ((y * width + x) * 4) tol E)
    by (apply Z.mod_mul; lia).
  destruct (run_rgbEq width height (computeBounds d ((y * width + x) * 4) tol) n
              (start x y d) (start x y d')) as [He [Hd Hs]].
  { split; [exact E|reflexivity]. }
  auto.
Qed.

Lemma alpha_plays_no_part_witness :
  rgbEq grayBlue [200; 200; 200; 0; 0; 0; 255; 7] /\
  snd (fillRun 2 1 0 0 grayBlue DEFAULT_TOLERANCE_VALUE 1) =
  snd (fillRun 2 1 0 0 [200; 200; 200; 0; 0; 0; 255; 7] DEFAULT_TOLERANCE_VALUE 1).
Proof.
  assert (rgbEq grayBlue [200; 200; 200; 0; 0; 0; 255; 7]) as E.
  { split; [reflexivity|]. intros i Hi.
    destruct (Z_lt_dec i 0) as [Hneg|Hpos].
    - unfold get. rewrite (proj2 (Z.ltb_lt i 0) Hneg). reflexivity.
    - destruct (Z_lt_dec i 8) as [Hlt|Hge].
      + assert (i = 0 \/ i = 1 \/ i = 2 \/ i = 3 \/ i = 4 \/ i = 5 \/ i = 6 \/ i = 7)
          as [-> | [-> | [-> | [-> | [-> | [-> | [-> | ->]]]]]]] by lia;
          try reflexivity; exfalso; apply Hi; reflexivity.
      + unfold get. rewrite (proj2 (Z.ltb_ge i 0)) by lia.
        rewrite !lookup_ge_None_2; [reflexivity|simpl; lia|simpl; lia]. }
  split; [exact E|].
  apply (alpha_plays_no_part 2 1 0 0 grayBlue [200; 200; 200; 0; 0; 0; 255; 7]
           DEFAULT_TOLERANCE_VALUE 1 E).
Defined.

(** ** Inputs on which the fill never returns *)

Section Hang.

Variables width height : Z.
Variable B : Bounds.

Local Abbreviation pos := (pos width).
Local Abbreviation inGrid := (inGrid width height).
Local Abbreviation validBuffer := (validBuffer width height).
Local Abbreviation frameInv := (frameInv width height B).

Lemma checkLeft_pushes_some x y p d st :
  0 < x -> matches B d (p - 4) = true ->
  pushes (snd (checkLeft B x y p d st false)) <> [].
Proof.
  intros Hx Hm. unfold checkLeft, matchTolerance.
  rewrite (proj2 (Z.ltb_lt 0 x) Hx), Hm. simpl. discriminate.
Qed.

Lemma checkRight_pushes_some x y p d st rl :
  x < width - 1 -> matches B d (p + 4) = true ->
  pushes (snd (checkRight width B x y p d st rl false)) <> [].
Proof.
  intros Hx Hm. unfold checkRight, matchTolerance.
  rewrite (proj2 (Z.ltb_lt x (width - 1)) Hx), Hm. simpl. discriminate.
Qed.

(** The first row of a pass pushes, when a horizontal neighbour matches. *)
Lemma scanBody_pushes_some x t s :
  inGrid (x, t) -> s_pos s = pos x t ->
  s_reachLeft s = false -> s_reachRight s = false ->
  (0 < x /\ matches B (s_data s) (pos (x - 1) t) = true) \/
  (x < width - 1 /\ matches B (s_data s) (pos (x + 1) t) = true) ->
  pushes (snd (scanBody width B x t s)) <> [].
Proof.
  intros Hg Hp Hl Hr Hn. destruct Hg as [Hx Ht]. simpl in Hx, Ht.
  unfold scanBody. rewrite Hp, Hl, Hr.
  set (d1 := fst (zeroPixel (s_data s) (pos x t))).
  change (zeroPixel (s_data s) (pos x t)) with
    (d1, [EvWrite (pos x t); EvWrite (pos x t + 1); EvWrite (pos x t + 2);
          EvWrite (pos x t + 3)]).
  cbv beta iota.
  assert (forall x', 0 <= x' < width -> x' <> x ->
            matches B d1 (pos x' t) = matches B (s_data s) (pos x' t)) as Hsame.
  { intros x' Hx' Hne. apply matches_zeroPixel_other with (height := height).
    - split; assumption.
    - split; simpl; lia.
    - lia. }
  destruct Hn as [[Hx0 Hm]|[Hx1 Hm]].
  - pose proof (checkLeft_pushes_some x t (pos x t) d1 (s_stack s) Hx0) as PL.
    rewrite pos_left, Hsame, Hm in PL by lia. specialize (PL eq_refl).
    destruct (checkLeft B x t (pos x t) d1 (s_stack s) false) as [[st1 rl1] e2].
    destruct (checkRight width B x t (pos x t) d1 st1 rl1 false) as [[[st2 rl2] rr2] e3].
    simpl in *. change (pushes (e2 ++ e3) <> []). rewrite pushes_app.
    destruct (pushes e2); [contradiction|discriminate].
  - destruct (checkLeft B x t (pos x t) d1 (s_stack s) false) as [[st1 rl1] e2].
    pose proof (checkRight_pushes_some x t (pos x t) d1 st1 rl1 Hx1) as PR.
    rewrite pos_right, Hsame, Hm in PR by lia. specialize (PR eq_refl).
    destruct (checkRight width B x t (pos x t) d1 st1 rl1 false) as [[[st2 rl2] rr2] e3].
    simpl in *. change (pushes (e2 ++ e3) <> []). rewrite pushes_app.
    destruct (pushes e3); [contradiction|]. destruct (pushes e2); discriminate.
Qed.

(** When every pixel matches, an iteration starts at row 0 of the popped
    column and pushes there. *)
Lemma iter_pushes_some x y0 rest d s' e :
  inGrid (x, y0) -> 2 <= width ->
  (forall px py, inGrid (px, py) -> matches B d (pos px py) = true) ->
  iter width height B (mkState d ((x, y0) :: rest)) = (s', e) -> pushes e <> [].
Proof.
  intros [Hx Hy] Hw Hall. simpl in Hx, Hy. unfold iter. simpl. fold (pos x y0).
  destruct (walkUp width B (Z.to_nat (y0 + 1)) d y0 (pos x y0)) as [[y1 p1] e1] eqn:Hup.
  apply walkUp_spec in Hup as (r0 & Hr0 & -> & -> & _ & Hstop & _); [|reflexivity|lia].
  assert (r0 = -1) as ->.
  { destruct (Z.eq_dec r0 (-1)) as [|Hne]; [assumption|exfalso].
    rewrite Hall in Hstop by (split; simpl; lia). specialize (Hstop ltac:(lia)).
    discriminate. }
  rewrite pos_down. replace (-1 - 1 + 1) with (-1) by lia. change (-1 + 1) with 0.
  pose proof (walkDown_loop width height B x
                (mkScan (-1) (pos x 0) d rest false false)) as Hloop.
  cbn [s_y s_pos s_data] in Hloop. change (-1 + 1) with 0 in Hloop.
  rewrite Hloop. clear Hloop.
  rewrite (proj2 (Z.ltb_lt (-1) (height - 1))) by lia.
  unfold matchTolerance. rewrite Hall by (split; simpl; lia).
  pose proof (scanBody_pushes_some x 0 (mkScan (-1) (pos x 0) d rest false false)
                ltac:(split; simpl; lia) eq_refl eq_refl eq_refl) as PS.
  cbn [s_data] in PS.
  assert (pushes (snd (scanBody width B x 0 (mkScan (-1) (pos x 0) d rest false false)))
          <> []) as PS'.
  { apply PS. destruct (Z_lt_le_dec 0 x).
    - left. split; [assumption|]. apply Hall. split; simpl; lia.
    - right. split; [lia|]. apply Hall. split; simpl; lia. }
  destruct (scanBody width B x 0 (mkScan (-1) (pos x 0) d rest false false)) as [s1 e2].
  destruct (walkDown width height B (Z.to_nat (height - 1 - s_y s1)) x s1) as [s2 e3].
  intros H; injection H as <- <-. simpl in PS'.
  rewrite pushes_app. change (pushes e1 ++ pushes (e2 ++ e3) <> []).
  rewrite pushes_app. destruct (pushes e2); [contradiction|].
  destruct (pushes e1); discriminate.
Qed.

Variable orig : list Z.
Hypothesis wide : 2 <= width.
Hypothesis zero_matches : zeroMatches B = true.
Hypothesis all_match :
  forall px py, inGrid (px, py) -> matches B orig (pos px py) = true.

Lemma all_match_now s l px py :
  frameInv orig s l -> inGrid (px, py) -> matches B (data s) (pos px py) = true.
Proof.
  intros I Hg. destruct (zeroed_dec width l (px, py)) as [Hz|Hz].
  - destruct (fi_zero I px py Hg Hz) as [Hzero _].
    rewrite (matches_zero_pixel B (data s) (pos px py)); [exact zero_matches| | |].
    + specialize (Hzero 0 ltac:(lia)). rewrite Z.add_0_r in Hzero. assumption.
    + apply Hzero. lia.
    + apply Hzero. lia.
  - rewrite (frameInv_matches width height B orig s l px py I Hg Hz). apply all_match.
    assumption.
Qed.

Lemma run_never_empty n : forall s l,
  frameInv orig s l -> pixelStack s <> [] ->
  pixelStack (fst (run width height B n s)) <> [].
Proof.
  induction n as [|n IH]; intros s l I Hne; [exact Hne|].
  rewrite fst_run_S.
  destruct (iter width height B s) as [s1 e1] eqn:H1. simpl.
  apply (IH s1 (l ++ e1)); [eapply frameInv_iter; eassumption|].
  destruct s as [d [|[x y0] rest]]; [contradiction|].
  pose proof (fi_stack I) as Hst. simpl in Hst. apply Forall_cons in Hst as [Hg _].
  pose proof (iter_pushes_some x y0 rest d s1 e1 Hg wide
                (fun px py Hp => all_match_now _ l px py I Hp) H1) as P.
  apply iter_events in H1 as (St & _ & _). rewrite St.
  destruct (pushes e1) as [|q ps]; [contradiction|].
  simpl. intros E. apply app_eq_nil in E as [E _]. apply app_eq_nil in E as [_ E].
  discriminate.
Qed.

End Hang.



(** ** A black seed *)

Lemma within_black (u : option Z) (tol : Q) :
  within u (Some (inject_Z 0 * (1 - tol))%Q) (Some (inject_Z 0 * (1 + tol))%Q) = true <->
  u = Some 0.
Proof.
  destruct u as [u|]; [|rewrite within_None; split; discriminate].
  rewrite within_Some. change (inject_Z 0) with 0%Q. split.
  - intros [H1 H2].
    assert (inject_Z 0 <= inject_Z u)%Q as H1' by (change (inject_Z 0) with 0%Q; nra).
    assert (inject_Z u <= inject_Z 0)%Q as H2' by (change (inject_Z 0) with 0%Q; nra).
    apply (proj1 (inject_Z_le _ _)) in H1'. apply (proj1 (inject_Z_le _ _)) in H2'.
    f_equal. lia.
  - intros H. injection H as ->. change (inject_Z 0) with 0%Q. split; nra.
Qed.

(** X18. The bounds are relative to the seed colour, so a black seed
    leaves no margin: whatever the tolerance, a pixel matches exactly
    when its R, G and B are all 0. *)
Theorem black_seed_is_exact d i tol d' j :
  get d i = Some 0 -> get d (i + 1) = Some 0 -> get d (i + 2) = Some 0 ->
  (matches (computeBounds d i tol) d' j = true <->
   get d' j = Some 0 /\ get d' (j + 1) = Some 0 /\ get d' (j + 2) = Some 0).
Proof.
  intros Hr Hg Hb. rewrite matches_within. unfold computeBounds.
  cbn [rMax gMax bMax rMin gMin bMin]. rewrite Hr, Hg, Hb. cbn [of_byte js_mul].
  rewrite !andb_true_iff, !within_black. tauto.
Qed.

Lemma black_seed_is_exact_witness :
  matches (computeBounds blackPair 0 (1 # 2)) grayOverBlack 4 = true <->
  get grayOverBlack 4 = Some 0 /\ get grayOverBlack 5 = Some 0 /\
  get grayOverBlack 6 = Some 0.
Proof.
  apply (black_seed_is_exact blackPair 0 (1 # 2) grayOverBlack 4); reflexivity.
Defined.

(** ** From translucifyAll to the fill *)



(** ** A buffer in which every pixel matches *)

Section Uniform.

Variables width height : Z.
Variable B : Bounds.

Local Abbreviation pos := (pos width).
Local Abbreviation inGrid := (inGrid width height).
Local Abbreviation validBuffer := (validBuffer width height).
Local Abbreviation zeroed := (zeroed width).
Local Abbreviation frameInv := (frameInv width height B).

Lemma checkLeft_pushes_in x y p d st :
  0 < x -> matches B d (p - 4) = true ->
  In (x - 1, y) (pushes (snd (checkLeft B x y p d st false))).
Proof.
  intros Hx Hm. unfold checkLeft, matchTolerance.
  rewrite (proj2 (Z.ltb_lt 0 x) Hx), Hm. simpl. auto.
Qed.

Lemma checkRight_pushes_in x y p d st rl :
  x < width - 1 -> matches B d (p + 4) = true ->
  In (x + 1, y) (pushes (snd (checkRight width B x y p d st rl false))).
Proof.
  intros Hx Hm. unfold checkRight, matchTolerance.
  rewrite (proj2 (Z.ltb_lt x (width - 1)) Hx), Hm. simpl. auto.
Qed.

Lemma scanBody_pushes_in x t s :
  inGrid (x, t) -> s_pos s = pos x t ->
  s_reachLeft s = false -> s_reachRight s = false ->
  (0 < x -> matches B (s_data s) (pos (x - 1) t) = true ->
   In (x - 1, t) (pushes (snd (scanBody width B x t s)))) /\
  (x < width - 1 -> matches B (s_data s) (pos (x + 1) t) = true ->
   In (x + 1, t) (pushes (snd (scanBody width B x t s)))).
Proof.
  intros Hg Hp Hl Hr. destruct Hg as [Hx Ht]. simpl in Hx, Ht.
  unfold scanBody. rewrite Hp, Hl, Hr.
  set (d1 := fst (zeroPixel (s_data s) (pos x t))).
  change (zeroPixel (s_data s) (pos x t)) with
    (d1, [EvWrite (pos x t); EvWrite (pos x t + 1); EvWrite (pos x t + 2);
          EvWrite (pos x t + 3)]).
  cbv beta iota.
  assert (forall x', 0 <= x' < width -> x' <> x ->
            matches B d1 (pos x' t) = matches B (s_data s) (pos x' t)) as Hsame.
  { intros x' Hx' Hne. apply matches_zeroPixel_other with (height := height).
    - split; assumption.
    - split; simpl; lia.
    - lia. }
  split.
  - intros Hx0 Hm.
    pose proof (checkLeft_pushes_in x t (pos x t) d1 (s_stack s) Hx0) as PL.
    rewrite pos_left, Hsame, Hm in PL by lia. specialize (PL eq_refl).
    destruct (checkLeft B x t (pos x t) d1 (s_stack s) false) as [[st1 rl1] e2].
    destruct (checkRight width B x t (pos x t) d1 st1 rl1 false) as [[[st2 rl2] rr2] e3].
    simpl in *. change (In (x - 1, t) (pushes (e2 ++ e3))). rewrite pushes_app.
    apply in_or_app. left. assumption.
  - intros Hx1 Hm.
    destruct (checkLeft B x t (pos x t) d1 (s_stack s) false) as [[st1 rl1] e2].
    pose proof (checkRight_pushes_in x t (pos x t) d1 st1 rl1 Hx1) as PR.
    rewrite pos_right, Hsame, Hm in PR by lia. specialize (PR eq_refl).
    destruct (checkRight width B x t (pos x t) d1 st1 rl1 false) as [[[st2 rl2] rr2] e3].
    simpl in *. change (In (x + 1, t) (pushes (e2 ++ e3))). rewrite pushes_app.
    apply in_or_app. right. assumption.
Qed.

(** When the popped column matches up to row 0, the pass starts there and
    pushes the matching neighbours of row 0. *)
Lemma iter_pushes_in x y0 rest d s' e :
  inGrid (x, y0) ->
  (forall r, 0 <= r <= y0 -> matches B d (pos x r) = true) ->
  iter width height B (mkState d ((x, y0) :: rest)) = (s', e) ->
  (0 < x -> matches B d (pos (x - 1) 0) = true -> In (x - 1, 0) (pushes e)) /\
  (x < width - 1 -> matches B d (pos (x + 1) 0) = true -> In (x + 1, 0) (pushes e)).
Proof.
  intros [Hx Hy] Hcol. simpl in Hx, Hy. unfold iter. simpl. fold (pos x y0).
  destruct (walkUp width B (Z.to_nat (y0 + 1)) d y0 (pos x y0)) as [[y1 p1] e1] eqn:Hup.
  apply walkUp_spec in Hup as (r0 & Hr0 & -> & -> & _ & Hstop & _); [|reflexivity|lia].
  assert (r0 = -1) as ->.
  { destruct (Z.eq_dec r0 (-1)) as [|Hne]; [assumption|exfalso].
    rewrite Hcol in Hstop by lia. specialize (Hstop ltac:(lia)). discriminate. }
  rewrite pos_down. replace (-1 - 1 + 1) with (-1) by lia. change (-1 + 1) with 0.
  pose proof (walkDown_loop width height B x
                (mkScan (-1) (pos x 0) d rest false false)) as Hloop.
  cbn [s_y s_pos s_data] in Hloop. change (-1 + 1) with 0 in Hloop.
  rewrite Hloop. clear Hloop.
  rewrite (proj2 (Z.ltb_lt (-1) (height - 1))) by lia.
  unfold matchTolerance. rewrite Hcol by lia.
  pose proof (scanBody_pushes_in x 0 (mkScan (-1) (pos x 0) d rest false false)
                ltac:(split; simpl; lia) eq_refl eq_refl eq_refl) as [PL PR].
  cbn [s_data] in PL, PR.
  destruct (scanBody width B x 0 (mkScan (-1) (pos x 0) d rest false false)) as [s1 e2].
  destruct (walkDown width height B (Z.to_nat (height - 1 - s_y s1)) x s1) as [s2 e3].
  intros H; injection H as <- <-. simpl in PL, PR.
  assert (forall q, In q (pushes e2) ->
            In q (pushes (e1 ++ [EvRead (pos x 0); EvRead (pos x 0 + 1);
                                 EvRead (pos x 0 + 2)] ++ e2 ++ e3))) as Hin.
  { intros q Hq. rewrite pushes_app. apply in_or_app. right.
    change (In q (pushes (e2 ++ e3))). rewrite pushes_app. apply in_or_app. left.
    assumption. }
  split; intros H1 H2; apply Hin; auto.
Qed.

Variable orig : list Z.
Hypothesis zero_fails : zeroMatches B = false.
Hypothesis all_match :
  forall px py, inGrid (px, py) -> matches B orig (pos px py) = true.

Local Abbreviation colZeroed := (colZeroed width height).
Local Abbreviation colFresh := (colFresh width height).
Local Abbreviation columnsInv := (columnsInv width height).

Lemma zeroed_no_match s l px py :
  frameInv orig s l -> inGrid (px, py) -> zeroed l (px, py) ->
  matches B (data s) (pos px py) = false.
Proof.
  intros I Hg Hz. destruct (fi_zero I px py Hg Hz) as [Hzero _].
  rewrite (matches_zero_pixel B (data s) (pos px py)); [exact zero_fails| | |].
  - specialize (Hzero 0 ltac:(lia)). rewrite Z.add_0_r in Hzero. assumption.
  - apply Hzero. lia.
  - apply Hzero. lia.
Qed.

Lemma fresh_matches s l px py :
  frameInv orig s l -> inGrid (px, py) -> ~ zeroed l (px, py) ->
  matches B (data s) (pos px py) = true.
Proof.
  intros I Hg Hz. rewrite (frameInv_matches width height B orig s l px py I Hg Hz).
  apply all_match. assumption.
Qed.

Lemma columnsInv_start x y : 0 < height -> columnsInv (start x y orig) [].
Proof.
  intros Hh. split.
  - intros z Hz. right. intros r Hr [].
  - intros z z' Hz Hz' _ Hzero _. destruct (Hzero 0 ltac:(lia)).
Qed.

Lemma columnsInv_iter s l s' e :
  frameInv orig s l -> columnsInv s l ->
  iter width height B s = (s', e) -> columnsInv s' (l ++ e).
Proof.
  intros I [U1 U2] H. destruct s as [d [|[x y0] rest]].
  - unfold iter in H. simpl in H. injection H as <- <-. rewrite app_nil_r.
    split; assumption.
  - pose proof (fi_valid I) as Hd. pose proof (fi_stack I) as Hst.
    simpl in Hd, Hst. apply Forall_cons in Hst as [Hg Hrest].
    pose proof Hg as [Hx Hy]. simpl in Hx, Hy.
    pose proof (iter_events width height B (x, y0) rest d s' e H) as (St & _ & _).
    pose proof (iter_spec width height B x y0 rest d s' e Hg Hd H)
      as (t & b & _ & Hb & _ & _ & _ & Hrun & (_ & _ & _ & Hw) & _).
    assert (forall x' y', inGrid (x', y') -> zeroed e (x', y') -> x' = x) as Hcolumn.
    { intros x' y' Hg' Hz. apply (Hw x' y' Hg') in Hz. apply Hz. }
    destruct (U1 x Hx) as [Hzx|Hfx].
    + (* the popped column is zeroed already: nothing happens *)
      assert (forall x' y', inGrid (x', y') -> ~ zeroed e (x', y')) as Hnone.
      { intros x' y' Hg' Hz. pose proof (Hcolumn x' y' Hg' Hz) as ->.
        apply (Hw x y' Hg') in Hz. destruct Hz as [_ Hr].
        pose proof (Hrun y' Hr) as Hm.
        pose proof (zeroed_no_match _ l x y' I Hg' (Hzx y' (proj2 Hg'))) as Hno.
        simpl in Hno. congruence. }
      assert (forall z, 0 <= z < width -> colZeroed (l ++ e) z -> colZeroed l z) as Hz_old.
      { intros z Hz Hzero r Hr. specialize (Hzero r Hr).
        apply zeroed_app in Hzero as [|Hze]; [assumption|].
        exfalso. apply (Hnone z r); [split; simpl; lia|assumption]. }
      assert (forall z, colFresh (l ++ e) z -> colFresh l z) as Hf_old.
      { intros z Hf r Hr Hz. apply (Hf r Hr). apply zeroed_app. left. assumption. }
      split.
      * intros z Hz. destruct (U1 z Hz) as [Hzz|Hfz].
        -- left. intros r Hr. apply zeroed_app. left. apply Hzz. assumption.
        -- right. intros r Hr Hzr. apply zeroed_app in Hzr as [Hzr|Hzr].
           ++ apply (Hfz r Hr). assumption.
           ++ apply (Hnone z r); [split; simpl; lia|assumption].
      * intros z z' Hz Hz' Hadj Hzero Hfresh.
        destruct (U2 z z' Hz Hz' Hadj (Hz_old z Hz Hzero) (Hf_old z' Hfresh)) as [r Hin].
        exists r. simpl in Hin. rewrite St. apply in_or_app. right.
        destruct Hin as [E|Hin]; [|assumption].
        injection E as <- <-. exfalso.
        apply (Hf_old x Hfresh y0 Hy). apply Hzx. assumption.
    + (* the popped column is untouched: it is zeroed from top to bottom *)
      assert (forall r, 0 <= r < height -> matches B d (pos x r) = true) as Hcolm.
      { intros r Hr. apply (fresh_matches _ l x r I); [split; simpl; lia|]. apply Hfx.
        assumption. }
      assert (colZeroed (l ++ e) x) as Hzx'.
      { intros r Hr. apply zeroed_app. right.
        apply (iter_column width height B x y0 rest d s' e Hg Hd (Hcolm y0 Hy) H r);
          [split; simpl; lia|].
        intros r' Hr'. apply Hcolm. lia. }
      pose proof (iter_pushes_in x y0 rest d s' e Hg
                    (fun r Hr => Hcolm r ltac:(lia)) H) as [PL PR].
      assert (forall z r, 0 <= z < width -> 0 <= r < height -> z <> x ->
                (zeroed (l ++ e) (z, r) <-> zeroed l (z, r))) as Hother.
      { intros z r Hz Hr Hne. rewrite zeroed_app. split; [|auto].
        intros [|Hze]; [assumption|]. exfalso. apply Hne.
        apply (Hcolumn z r); [split; simpl; lia|assumption]. }
      split.
      * intros z Hz. destruct (Z.eq_dec z x) as [->|Hne]; [left; assumption|].
        destruct (U1 z Hz) as [Hzz|Hfz].
        -- left. intros r Hr. apply Hother; auto.
        -- right. intros r Hr Hzr. apply (Hfz r Hr). apply Hother in Hzr; auto.
      * intros z z' Hz Hz' Hadj Hzero Hfresh.
        assert (z' <> x) as Hne'.
        { intros ->. apply (Hfresh y0 Hy). apply Hzx'. assumption. }
        assert (colFresh l z') as Hfresh_old.
        { intros r Hr Hzr. apply (Hfresh r Hr). apply zeroed_app. left. assumption. }
        rewrite St. destruct (Z.eq_dec z x) as [->|Hne].
        -- exists 0. apply in_or_app. left. rewrite <- in_rev.
           assert (matches B d (pos z' 0) = true) as Hm0.
           { apply (fresh_matches _ l z' 0 I); [split; simpl; lia|].
             apply Hfresh_old. lia. }
           destruct Hadj as [-> | ->]; [apply PL|apply PR]; try assumption; lia.
        -- assert (colZeroed l z) as Hzero_old.
           { intros r Hr. apply (Hother z r Hz Hr Hne). apply Hzero. assumption. }
           destruct (U2 z z' Hz Hz' Hadj Hzero_old Hfresh_old) as [r Hin].
           exists r. apply in_or_app. right. simpl in Hin.
           destruct Hin as [E|Hin]; [|assumption].
           injection E as <- <-. contradiction.
Qed.

Lemma columnsInv_run n : forall s l s' e,
  frameInv orig s l -> columnsInv s l ->
  run width height B n s = (s', e) -> columnsInv s' (l ++ e).
Proof.
  induction n as [|n IH]; intros s l s' e I U H; simpl in H.
  - injection H as <- <-. rewrite app_nil_r. assumption.
  - destruct (iter width height B s) as [s1 e1] eqn:H1.
    destruct (run width height B n s1) as [s2 e2] eqn:H2.
    injection H as <- <-. rewrite app_assoc.
    eapply IH; [| |exact H2].
    + eapply frameInv_iter; eassumption.
    + eapply columnsInv_iter; eassumption.
Qed.

(** Once the stack is empty, zeroed columns have no untouched neighbour:
    from the seed's column on, every column is zeroed. *)
Lemma columns_all_zeroed s l x :
  columnsInv s l -> pixelStack s = [] -> 0 <= x < width -> colZeroed l x ->
  forall k z, 0 <= z < width -> Z.abs (z - x) <= Z.of_nat k -> colZeroed l z.
Proof.
  intros [U1 U2] Hs Hx Hzx. induction k as [|k IH]; intros z Hz Hk.
  - assert (z = x) as -> by lia. assumption.
  - destruct (Z_le_dec (Z.abs (z - x)) (Z.of_nat k)) as [Hle|Hgt]; [apply IH; assumption|].
    destruct (U1 z Hz) as [|Hf]; [assumption|exfalso].
    destruct (Z_lt_le_dec z x) as [Hlt|Hge].
    + destruct (U2 (z + 1) z ltac:(lia) Hz ltac:(lia) (IH (z + 1) ltac:(lia) ltac:(lia)) Hf)
        as [r Hin].
      rewrite Hs in Hin. destruct Hin.
    + destruct (U2 (z - 1) z ltac:(lia) Hz ltac:(lia) (IH (z - 1) ltac:(lia) ltac:(lia)) Hf)
        as [r Hin].
      rewrite Hs in Hin. destruct Hin.
Qed.

End Uniform.


